(** * AkkuChat: the room registry and signalling relay of [server.js]

    A shallow embedding of the Socket.IO event handlers of [server.js]
    (lines 76-341) and of the part of Socket.IO they rely on (rooms,
    [socket.emit], [socket.to(r).emit], [io.to(r).emit]), followed by the
    properties of the registry, of the membership lists, of the message
    relay and of the call signalling.

    Conventions of the model.
    - Socket ids, room ids, user names, texts and urls are strings, as in
      the interface table of the specification; the falsy string is the
      empty one.  A string stands for the JavaScript string it is the
      UTF-8 encoding of; [trim] removes the whole ECMAScript white space,
      the characters above U+007F by their byte sequences.
    - [activeUsers] is a JavaScript object used as a dictionary.  Socket ids
      are never array indices, so [Object.keys] lists them in insertion
      order: the object is an association list in that order.  Socket ids
      are generated by Socket.IO and are not property names of
      [Object.prototype]; a key chosen by a client can be one, and
      [activeUsers[key]] then finds the inherited property.
    - Socket.IO is taken as version 4 documents it: [socket.to(r)] leaves
      out every socket of the room named by the sender's id.
    - [new Date().toLocaleTimeString()] reads the server clock: the value
      read is an argument [now] of the handlers that use it.
    - [console.log] has no effect on the registry or on what is sent and
      is left out. *)

From Stdlib Require Import Ascii String.
From stdpp Require Import base strings list gmap sets.

#[local] Set Warnings "-clear-no-such-hyp".

(** ** Data *)

(** Socket ids ([socket.id]) and room names are strings. *)
Abbreviation SocketId := string (only parsing).
Abbreviation Room := string (only parsing).

(** The value stored per socket: [{ username, roomId }] (line 77). *)
Record User := mkUser { username : string; roomId : string }.

#[global] Instance User_eq_dec : EqDecision User.
Proof. solve_decision. Defined.

(** An opaque JSON value: what the WebRTC handlers pass along
    ([offer], [answer], [candidate]). *)
#[local] Unset Elimination Schemes.
Inductive Json :=
| JNull
| JBool (b : bool)
| JNum (n : Z)
| JStr (s : string)
| JArr (l : list Json)
| JObj (fields : list (string * Json)).
#[local] Set Elimination Schemes.

(** Events a client sends; the payload fields are those each handler
    destructures from [data]. *)
Inductive ClientEvent :=
| JoinRoom (username roomId : string)
| SendMessage (message : string)
| SendImage (imageUrl : string)
| GetRoomUsers
| CallUser (targetSocketId callType : string)
| AcceptCall (callerSocketId : string)
| RejectCall (callerSocketId : string)
| EndCall (targetSocketId : string)
| WebrtcOfferIn (targetSocketId : string) (offer : Json)
| WebrtcAnswerIn (targetSocketId : string) (answer : Json)
| WebrtcIceCandidateIn (targetSocketId : string) (candidate : Json)
| Disconnect.

(** Events the server emits, with the fields of the emitted object.
    An entry of a room users list is [{ socketId, username }], a pair. *)
Inductive ServerEvent :=
| JoinError (message : string)
| JoinedRoom (username roomId : string)
| UserJoined (username message : string)
| UserLeft (username message : string)
| RoomUsersList (roomUsers : list (SocketId * string))
| ReceiveMessage (username message timestamp : string)
| ReceiveImage (username imageUrl timestamp : string)
| ErrorEvent (message : string)
| CallError (message : string)
| IncomingCall (callerSocketId callerUsername callType : string)
| CallAccepted (answererSocketId answererUsername : string)
| CallRejected (answererSocketId answererUsername : string)
| CallEnded (fromSocketId fromUsername : string)
| WebrtcOffer (fromSocketId : string) (offer : Json)
| WebrtcAnswer (fromSocketId : string) (answer : Json)
| WebrtcIceCandidate (fromSocketId : string) (candidate : Json).

(** One call of [emit]: the sockets it reaches and the event. *)
Record Emit := mkEmit { recipients : gset SocketId; event : ServerEvent }.

(** ** JavaScript objects as insertion-ordered dictionaries *)

Module JsObject.
Section ops.
Context {V : Type}.

(** [o[k]] *)
Fixpoint get (k : string) (o : list (string * V)) : option V :=
  match o with
  | [] => None
  | (k', v) :: o' => if decide (k' = k) then Some v else get k o'
  end.

(** [o[k] = v]: an existing key keeps its place, a new one goes last. *)
Fixpoint put (k : string) (v : V) (o : list (string * V)) : list (string * V) :=
  match o with
  | [] => [(k, v)]
  | (k', v') :: o' =>
      if decide (k' = k) then (k, v) :: o' else (k', v') :: put k v o'
  end.

(** [delete o[k]] *)
Fixpoint remove (k : string) (o : list (string * V)) : list (string * V) :=
  match o with
  | [] => []
  | (k', v') :: o' =>
      if decide (k' = k) then remove k o' else (k', v') :: remove k o'
  end.

(** [Object.keys(o)] *)
Definition keys (o : list (string * V)) : list string := o.*1.

(** The property names a plain object inherits from [Object.prototype];
    their values are functions, or the prototype itself for [__proto__]:
    all truthy. *)
Definition prototype_keys : list string :=
  [ "constructor"; "__defineGetter__"; "__defineSetter__";
    "hasOwnProperty"; "__lookupGetter__"; "__lookupSetter__";
    "isPrototypeOf"; "propertyIsEnumerable"; "toString"; "valueOf";
    "__proto__"; "toLocaleString" ].

(** Whether [o[k]] is truthy, for a key [k] of any origin and an object
    whose own entries are objects: an own entry, or else an inherited
    property. *)
Definition truthy_at (k : string) (o : list (string * V)) : bool :=
  match get k o with
  | Some _ => true
  | None => bool_decide (k ∈ prototype_keys)
  end.
End ops.
End JsObject.

(** ** Strings *)

(** ECMAScript WhiteSpace and LineTerminator below 128:
    TAB, LF, VT, FF, CR and SP. *)
Definition is_white_space (a : ascii) : bool :=
  let n := nat_of_ascii a in
  bool_decide (n = 9 ∨ n = 10 ∨ n = 11 ∨ n = 12 ∨ n = 13 ∨ n = 32)%nat.

(** The white space of two bytes in UTF-8: U+00A0 (C2 A0). *)
Definition is_white_space2 (a b : ascii) : bool :=
  bool_decide (nat_of_ascii a = 194 ∧ nat_of_ascii b = 160)%nat.

(** The white space and line terminators of three bytes in UTF-8:
    U+1680 (E1 9A 80); U+2000 to U+200A, U+2028, U+2029 and U+202F
    (E2 80 80 to E2 80 8A, E2 80 A8, E2 80 A9, E2 80 AF); U+205F
    (E2 81 9F); U+3000 (E3 80 80); U+FEFF (EF BB BF). *)
Definition is_white_space3 (a b c : ascii) : bool :=
  let x := nat_of_ascii a in
  let y := nat_of_ascii b in
  let z := nat_of_ascii c in
  bool_decide
    ((x = 225 ∧ y = 154 ∧ z = 128) ∨
     (x = 226 ∧ y = 128 ∧
        (128 ≤ z ≤ 138 ∨ z = 168 ∨ z = 169 ∨ z = 175)) ∨
     (x = 226 ∧ y = 129 ∧ z = 159) ∨
     (x = 227 ∧ y = 128 ∧ z = 128) ∨
     (x = 239 ∧ y = 187 ∧ z = 191))%nat.

(** Dropping the white space a string begins with; [ws2] and [ws3] say
    which two and three bytes, read in this order, are a white space
    character. *)
Fixpoint strip (ws2 : ascii → ascii → bool)
    (ws3 : ascii → ascii → ascii → bool) (s : string) : string :=
  match s with
  | EmptyString => EmptyString
  | String a s1 =>
      if is_white_space a then strip ws2 ws3 s1
      else
        match s1 with
        | String b s2 =>
            if ws2 a b then strip ws2 ws3 s2
            else
              match s2 with
              | String c s3 => if ws3 a b c then strip ws2 ws3 s3 else s
              | EmptyString => s
              end
        | EmptyString => s
        end
  end.

Definition trimStart (s : string) : string :=
  strip is_white_space2 is_white_space3 s.

(** From the end the bytes of a character come last byte first. *)
Definition trimEnd (s : string) : string :=
  String.rev
    (strip (λ a b, is_white_space2 b a) (λ a b c, is_white_space3 c b a)
           (String.rev s)).

(** [String.prototype.trim] *)
Definition trim (s : string) : string := trimEnd (trimStart s).

(** ** The server state and Socket.IO *)

(** [activeUsers] (line 78), the sockets connected to the namespace, and
    the rooms of the Socket.IO adapter (room name to the sockets in it). *)
Record Server := mkServer {
  activeUsers : list (SocketId * User);
  sockets : gset SocketId;
  rooms : gmap Room (gset SocketId)
}.

Definition initial : Server := mkServer [] ∅ ∅.

Definition room_members (r : Room) (st : Server) : gset SocketId :=
  default ∅ (rooms st !! r).

(** [socket.join(r)] *)
Definition socket_join (c : SocketId) (r : Room) (st : Server) : Server :=
  mkServer (activeUsers st) (sockets st)
           (<[r := {[c]} ∪ room_members r st]> (rooms st)).

(** What Socket.IO does when a client connects: the socket enters the
    namespace and the room named by its own id. *)
Definition connect (c : SocketId) (st : Server) : Server :=
  socket_join c c (mkServer (activeUsers st) ({[c]} ∪ sockets st) (rooms st)).

(** What Socket.IO does when a socket closes, before the ['disconnect']
    listeners run: the socket leaves every room and the namespace. *)
Definition socket_close (c : SocketId) (st : Server) : Server :=
  mkServer (activeUsers st) (sockets st ∖ {[c]})
           ((λ s : gset SocketId, s ∖ {[c]}) <$> rooms st).

(** [socket.emit(ev)]: to this socket only. *)
Definition socket_emit (c : SocketId) (ev : ServerEvent) : Emit :=
  mkEmit {[c]} ev.

(** [socket.to(r).emit(ev)]: to the sockets in room [r], except those of
    the room named by the sender's id, the sender among them. *)
Definition socket_to (st : Server) (c : SocketId) (r : Room)
    (ev : ServerEvent) : Emit :=
  mkEmit (room_members r st ∖ room_members c st) ev.

(** [io.to(r).emit(ev)]: to every socket in room [r]. *)
Definition io_to (st : Server) (r : Room) (ev : ServerEvent) : Emit :=
  mkEmit (room_members r st) ev.

Definition set_activeUsers (f : list (SocketId * User) → list (SocketId * User))
    (st : Server) : Server :=
  mkServer (f (activeUsers st)) (sockets st) (rooms st).

(** ** The handlers *)

(** The loop shared by lines 110-118, 188-196 and 325-333:
    [Object.keys(activeUsers).forEach(sid => { if (cond) roomUsers.push(..) })]. *)
Definition collect_room_users (cond : SocketId → User → bool)
    (au : list (SocketId * User)) : list (SocketId * string) :=
  foldl (λ roomUsers sid,
           match JsObject.get sid au with
           | Some u => if cond sid u then roomUsers ++ [(sid, username u)]
                       else roomUsers
           | None => roomUsers
           end)
        [] (JsObject.keys au).

(** ['join-room'], lines 85-122; [name] and [room] are the [username]
    and [roomId] of the payload. *)
Definition on_join_room (c : SocketId) (name room : string)
    (st : Server) : Server * list Emit :=
  if bool_decide (name = "") || bool_decide (room = "") then
    (st, [socket_emit c (JoinError "Username and Room ID are required!")])
  else
    let st := set_activeUsers (JsObject.put c (mkUser name room)) st in
    let st := socket_join c room st in
    let roomUsers :=
      collect_room_users (λ sid u, bool_decide (roomId u = room))
                         (activeUsers st) in
    (st, [ socket_emit c (JoinedRoom name room);
           socket_to st c room (UserJoined name (name +:+ " joined the room"));
           io_to st room (RoomUsersList roomUsers) ]).

(** ['send-message'], lines 125-150. *)
Definition on_send_message (c : SocketId) (now message : string)
    (st : Server) : Server * list Emit :=
  match JsObject.get c (activeUsers st) with
  | None => (st, [socket_emit c (ErrorEvent "You must join a room first!")])
  | Some user =>
      if bool_decide (message = "") || bool_decide (trim message = "") then
        (st, [])
      else
        let messageData := ReceiveMessage (username user) (trim message) now in
        (st, [io_to st (roomId user) messageData])
  end.

(** ['send-image'], lines 153-178. *)
Definition on_send_image (c : SocketId) (now imageUrl : string)
    (st : Server) : Server * list Emit :=
  match JsObject.get c (activeUsers st) with
  | None => (st, [socket_emit c (ErrorEvent "You must join a room first!")])
  | Some user =>
      if bool_decide (imageUrl = "") then (st, [])
      else
        let imageData := ReceiveImage (username user) imageUrl now in
        (st, [io_to st (roomId user) imageData])
  end.

(** ['get-room-users'], lines 181-199. *)
Definition on_get_room_users (c : SocketId) (st : Server)
    : Server * list Emit :=
  match JsObject.get c (activeUsers st) with
  | None => (st, [])
  | Some user =>
      let roomUsers :=
        collect_room_users
          (λ socketId u,
             bool_decide (roomId u = roomId user)
             && negb (bool_decide (socketId = c)))
          (activeUsers st) in
      (st, [socket_emit c (RoomUsersList roomUsers)])
  end.

(** ['call-user'], lines 202-225.  A target found only as a property
    inherited from [Object.prototype] has no [roomId], which differs from
    the caller's: the outcome is that of a target not found. *)
Definition on_call_user (c : SocketId) (targetSocketId callType : string)
    (st : Server) : Server * list Emit :=
  match JsObject.get c (activeUsers st) with
  | None => (st, [])
  | Some caller =>
      match JsObject.get targetSocketId (activeUsers st) with
      | Some target =>
          if bool_decide (roomId target ≠ roomId caller) then
            (st, [socket_emit c (CallError "User not found in room")])
          else
            (st, [socket_to st c targetSocketId
                    (IncomingCall c (username caller) callType)])
      | None => (st, [socket_emit c (CallError "User not found in room")])
      end
  end.

(** ['accept-call'], lines 228-244; of [caller] only the truth value is
    used. *)
Definition on_accept_call (c : SocketId) (callerSocketId : string)
    (st : Server) : Server * list Emit :=
  match JsObject.get c (activeUsers st) with
  | Some user =>
      if JsObject.truthy_at callerSocketId (activeUsers st) then
        (st, [socket_to st c callerSocketId (CallAccepted c (username user))])
      else (st, [])
  | None => (st, [])
  end.

(** ['reject-call'], lines 247-263; as for ['accept-call']. *)
Definition on_reject_call (c : SocketId) (callerSocketId : string)
    (st : Server) : Server * list Emit :=
  match JsObject.get c (activeUsers st) with
  | Some user =>
      if JsObject.truthy_at callerSocketId (activeUsers st) then
        (st, [socket_to st c callerSocketId (CallRejected c (username user))])
      else (st, [])
  | None => (st, [])
  end.

(** ['end-call'], lines 266-281. *)
Definition on_end_call (c : SocketId) (targetSocketId : string)
    (st : Server) : Server * list Emit :=
  match JsObject.get c (activeUsers st) with
  | None => (st, [])
  | Some user =>
      (st, [socket_to st c targetSocketId (CallEnded c (username user))])
  end.

(** ['webrtc-offer'], lines 284-290. *)
Definition on_webrtc_offer (c : SocketId) (targetSocketId : string)
    (offer : Json) (st : Server) : Server * list Emit :=
  (st, [socket_to st c targetSocketId (WebrtcOffer c offer)]).

(** ['webrtc-answer'], lines 293-299. *)
Definition on_webrtc_answer (c : SocketId) (targetSocketId : string)
    (answer : Json) (st : Server) : Server * list Emit :=
  (st, [socket_to st c targetSocketId (WebrtcAnswer c answer)]).

(** ['webrtc-ice-candidate'], lines 302-308. *)
Definition on_webrtc_ice_candidate (c : SocketId) (targetSocketId : string)
    (candidate : Json) (st : Server) : Server * list Emit :=
  (st, [socket_to st c targetSocketId (WebrtcIceCandidate c candidate)]).

(** ['disconnect'], lines 311-340.  It runs on the state Socket.IO leaves
    after closing the socket, see [handle]. *)
Definition on_disconnect (c : SocketId) (st : Server) : Server * list Emit :=
  match JsObject.get c (activeUsers st) with
  | None => (st, [])
  | Some user =>
      let left :=
        socket_to st c (roomId user)
          (UserLeft (username user) (username user +:+ " left the room")) in
      let st := set_activeUsers (JsObject.remove c) st in
      let roomUsers :=
        collect_room_users (λ sid u, bool_decide (roomId u = roomId user))
                           (activeUsers st) in
      (st, [left; io_to st (roomId user) (RoomUsersList roomUsers)])
  end.

(** The listeners registered on a socket (lines 81-341): the event [e]
    arrives on socket [c] while the server clock reads [now]. *)
Definition handle (c : SocketId) (now : string) (e : ClientEvent)
    (st : Server) : Server * list Emit :=
  match e with
  | JoinRoom name room => on_join_room c name room st
  | SendMessage message => on_send_message c now message st
  | SendImage imageUrl => on_send_image c now imageUrl st
  | GetRoomUsers => on_get_room_users c st
  | CallUser targetSocketId callType =>
      on_call_user c targetSocketId callType st
  | AcceptCall callerSocketId => on_accept_call c callerSocketId st
  | RejectCall callerSocketId => on_reject_call c callerSocketId st
  | EndCall targetSocketId => on_end_call c targetSocketId st
  | WebrtcOfferIn targetSocketId offer =>
      on_webrtc_offer c targetSocketId offer st
  | WebrtcAnswerIn targetSocketId answer =>
      on_webrtc_answer c targetSocketId answer st
  | WebrtcIceCandidateIn targetSocketId candidate =>
      on_webrtc_ice_candidate c targetSocketId candidate st
  | Disconnect => on_disconnect c (socket_close c st)
  end.

(** What reaches the server: a new connection, or an event on a socket. *)
Inductive Input :=
| Connection (c : SocketId)
| Receive (c : SocketId) (now : string) (e : ClientEvent).

Definition step (i : Input) (st : Server) : Server * list Emit :=
  match i with
  | Connection c => (connect c st, [])
  | Receive c now e => handle c now e st
  end.

(** Running a sequence of inputs, keeping everything that was sent. *)
Fixpoint run (inputs : list Input) (st : Server) : Server * list Emit :=
  match inputs with
  | [] => (st, [])
  | i :: inputs' =>
      let '(st1, out1) := step i st in
      let '(st2, out2) := run inputs' st1 in
      (st2, out1 ++ out2)
  end.

(** The states of a running server: Socket.IO gives a fresh id to each
    connection, and events arrive only on connected sockets. *)
Inductive reachable : Server → Prop :=
| reachable_initial : reachable initial
| reachable_connect st c :
    reachable st → c ∉ sockets st → reachable (connect c st)
| reachable_receive st c now e :
    reachable st → c ∈ sockets st → reachable (handle c now e st).1.

(** The registry of the specification, read off the handlers. *)
Definition registry_lookup (c : SocketId) (st : Server) : option User :=
  JsObject.get c (activeUsers st).

(** The socket ids listed in what a ['room-users-list'] carries. *)
Definition listed (roomUsers : list (SocketId * string)) : list SocketId :=
  roomUsers.*1.

(** ** Derived notions used in the statements *)

(** What one pass of the loop body contributes for the key [sid]. *)
Definition pushed (cond : SocketId → User → bool) (au : list (SocketId * User))
    (sid : SocketId) : option (SocketId * string) :=
  match JsObject.get sid au with
  | Some u => if cond sid u then Some (sid, username u) else None
  | None => None
  end.

(** Only ['join-room'] and ['disconnect'] touch the state. *)
Definition next_state (c : SocketId) (e : ClientEvent) (st : Server) : Server :=
  match e with
  | JoinRoom name room =>
      if bool_decide (name = "") || bool_decide (room = "") then st
      else socket_join c room
             (set_activeUsers (JsObject.put c (mkUser name room)) st)
  | Disconnect => set_activeUsers (JsObject.remove c) (socket_close c st)
  | _ => st
  end.

(** *** The invariant of a running server *)

(** The keys of [activeUsers] are distinct; a registered socket is
    connected and sits in the Socket.IO room of its [roomId]; a connected
    socket sits in the room named by its id; rooms hold connected sockets
    only. *)
Record consistent (st : Server) : Prop := mkConsistent {
  consistent_keys : NoDup (JsObject.keys (activeUsers st));
  consistent_registered c u :
    registry_lookup c st = Some u →
    c ∈ sockets st ∧ c ∈ room_members (roomId u) st;
  consistent_own_room c : c ∈ sockets st → c ∈ room_members c st;
  consistent_rooms r c : c ∈ room_members r st → c ∈ sockets st
}.

(** Inputs a running server can get: a connection with a fresh id, an
    event on a connected socket. *)
Definition admissible (i : Input) (st : Server) : Prop :=
  match i with
  | Connection c => c ∉ sockets st
  | Receive c _ _ => c ∈ sockets st
  end.

Fixpoint admissible_run (inputs : list Input) (st : Server) : Prop :=
  match inputs with
  | [] => True
  | i :: inputs' => admissible i st ∧ admissible_run inputs' (step i st).1
  end.

#[global] Instance admissible_dec i st : Decision (admissible i st).
Proof. destruct i; simpl; apply _. Defined.

#[global] Instance admissible_run_dec inputs st :
  Decision (admissible_run inputs st).
Proof. revert st. induction inputs; intros st; simpl; apply _. Defined.

(** *** Example runs *)

Module Scenario.
(** A and B connect and join room R1 as alice and bob. *)
Definition two_joined : list Input :=
  [ Connection "A"; Connection "B";
    Receive "A" "10:00:00" (JoinRoom "alice" "R1");
    Receive "B" "10:00:05" (JoinRoom "bob" "R1") ].

(** Then A calls B and B accepts. *)
Definition mid_call : list Input :=
  two_joined ++
  [ Receive "A" "10:01:00" (CallUser "B" "video");
    Receive "B" "10:01:03" (AcceptCall "A") ].

(** A joins R1 and then, on the same connection, R2; B joins R1. *)
Definition rejoined : list Input :=
  [ Connection "A"; Connection "B";
    Receive "A" "10:00:00" (JoinRoom "alice" "R1");
    Receive "B" "10:00:05" (JoinRoom "bob" "R1");
    Receive "A" "10:02:00" (JoinRoom "alice" "R2") ].

(** A joins R1, B joins R2, C only connects. *)
Definition two_rooms : list Input :=
  [ Connection "A"; Connection "B"; Connection "C";
    Receive "A" "10:00:00" (JoinRoom "alice" "R1");
    Receive "B" "10:00:05" (JoinRoom "bob" "R2") ].

Definition after (inputs : list Input) : Server := (run inputs initial).1.

(** A joins R1 as alice; B connects and joins the room named by the
    socket id of A; C joins R1 as carol. *)
Definition named_after_socket : list Input :=
  [ Connection "A"; Connection "B"; Connection "C";
    Receive "A" "10:00:00" (JoinRoom "alice" "R1");
    Receive "B" "10:00:05" (JoinRoom "bob" "A");
    Receive "C" "10:00:09" (JoinRoom "carol" "R1") ].

End Scenario.

(** *** Membership lists *)

(** [l] names exactly the connections whose session has room id [R], each
    with its user name. *)
Definition lists_room (l : list (SocketId * string)) (R : Room)
    (st : Server) : Prop :=
  ∀ c name, (c, name) ∈ l ↔ registry_lookup c st = Some (mkUser name R).

(** The same, leaving out connection [x]. *)
Definition lists_room_except (x : SocketId) (l : list (SocketId * string))
    (R : Room) (st : Server) : Prop :=
  ∀ c name,
    (c, name) ∈ l ↔ c ≠ x ∧ registry_lookup c st = Some (mkUser name R).

(** *** Kinds of events *)

(** The events of the call signalling. *)
Definition is_call_signal (ev : ServerEvent) : bool :=
  match ev with
  | CallError _ | IncomingCall _ _ _ | CallAccepted _ _ | CallRejected _ _
  | CallEnded _ _ | WebrtcOffer _ _ | WebrtcAnswer _ _
  | WebrtcIceCandidate _ _ => true
  | _ => false
  end.

(** Among what was sent, [peer] got an event of the call signalling. *)
Definition call_signal_sent_to (peer : SocketId) (out : list Emit) : Prop :=
  ∃ em, em ∈ out ∧ peer ∈ recipients em ∧ is_call_signal (event em) = true.

(** ['incoming-call'] *)
Definition is_incoming_call (ev : ServerEvent) : bool :=
  match ev with IncomingCall _ _ _ => true | _ => false end.

(** Errors: ['error'], ['call-error'] and ['join-error']. *)
Definition is_error (ev : ServerEvent) : bool :=
  match ev with
  | ErrorEvent _ | CallError _ | JoinError _ => true
  | _ => false
  end.

(** *** Readings of the specification that the handlers do not meet *)

(** The text is broadcast as the client sent it. *)
Definition broadcasts_text_verbatim (c now text : string) (st : Server)
    : Prop :=
  ∃ u em,
    registry_lookup c st = Some u ∧
    em ∈ (handle c now (SendMessage text) st).2 ∧
    event em = ReceiveMessage (username u) text now.

(** ['accept-call'] from [u] naming [c] reaches [c]. *)
Definition accept_call_reaches (u c now : string) (st : Server) : Prop :=
  ∃ em, em ∈ (handle u now (AcceptCall c) st).2 ∧ c ∈ recipients em.

(** The relay looks the target up in the registry before forwarding. *)
Definition relay_checks_registry (c now : string) (e : ClientEvent)
    (target : SocketId) (st : Server) : Prop :=
  registry_lookup target st = None →
  ∀ em, em ∈ (handle c now e st).2 → target ∉ recipients em.

(** The event is answered by one error to the sender and nothing else
    happens. *)
Definition error_reported_and_dropped (c now : string) (e : ClientEvent)
    (st : Server) : Prop :=
  ∃ ev, is_error ev = true ∧ handle c now e st = (st, [mkEmit {[c]} ev]).

(** *** Further notions: disciplined clients, effect-free events, traces *)

(** The states reached when every connection sends ['join-room'] at most
    once while it is registered, as the bundled client does: it joins from
    the join screen and leaves by closing the connection. *)
Inductive joins_once : Server → Prop :=
| joins_once_initial : joins_once initial
| joins_once_connect st c :
    joins_once st → c ∉ sockets st → joins_once (connect c st)
| joins_once_receive st c now e :
    joins_once st → c ∈ sockets st →
    (∀ name room, e = JoinRoom name room → registry_lookup c st = None) →
    joins_once (handle c now e st).1.

(** A socket is in room [r] exactly when it is the connected socket named
    [r] or its session has room id [r]. *)
Definition rooms_mirror_registry (st : Server) : Prop :=
  ∀ r c, c ∈ room_members r st ↔
         (c = r ∧ c ∈ sockets st) ∨
         ∃ u, registry_lookup c st = Some u ∧ roomId u = r.

(** Inputs of clients that join once. *)
Definition admissible_once (i : Input) (st : Server) : Prop :=
  admissible i st ∧
  match i with
  | Receive c _ (JoinRoom _ _) => registry_lookup c st = None
  | _ => True
  end.

Fixpoint admissible_once_run (inputs : list Input) (st : Server) : Prop :=
  match inputs with
  | [] => True
  | i :: inputs' =>
      admissible_once i st ∧ admissible_once_run inputs' (step i st).1
  end.

#[global] Instance admissible_once_dec i st : Decision (admissible_once i st).
Proof.
  unfold admissible_once. destruct i as [c|c now []]; simpl; apply _.
Defined.

#[global] Instance admissible_once_run_dec inputs st :
  Decision (admissible_once_run inputs st).
Proof. revert st. induction inputs; intros st; simpl; apply _. Defined.

(** Events whose handler has no assignment, [delete] or [socket.join] on
    the path taken: every event but ['disconnect'] and a ['join-room']
    that passes the validation of line 89. *)
Definition effect_free (e : ClientEvent) : bool :=
  match e with
  | JoinRoom name room => bool_decide (name = "") || bool_decide (room = "")
  | Disconnect => false
  | _ => true
  end.

Definition effect_free_input (i : Input) : bool :=
  match i with
  | Connection _ => false
  | Receive _ _ e => effect_free e
  end.

(** The session of [c] after [inputs], read off the events of [c] alone:
    its last valid ['join-room'] since its last ['disconnect']. *)
Fixpoint session_after (c : SocketId) (inputs : list Input)
    (session : option User) : option User :=
  match inputs with
  | [] => session
  | Receive c' _ (JoinRoom name room) :: inputs' =>
      if bool_decide (c' = c)
         && negb (bool_decide (name = "") || bool_decide (room = ""))
      then session_after c inputs' (Some (mkUser name room))
      else session_after c inputs' session
  | Receive c' _ Disconnect :: inputs' =>
      if bool_decide (c' = c) then session_after c inputs' None
      else session_after c inputs' session
  | _ :: inputs' => session_after c inputs' session
  end.

(** The characters of a string, its first and its last one. *)
Definition first_char (s : string) : option ascii :=
  head (list_ascii_of_string s).

Definition last_char (s : string) : option ascii :=
  last (list_ascii_of_string s).

(** What a ['room-users-list'] carries, if the event is one. *)
Definition room_users_of (ev : ServerEvent) : option (list (SocketId * string)) :=
  match ev with RoomUsersList roomUsers => Some roomUsers | _ => None end.

(** ** Dictionary lemmas *)

Module JsObjectFacts.
Import JsObject.
Section facts.
Context {V : Type}.
Implicit Types (k : string) (v : V) (o : list (string * V)).

Lemma get_put_eq k v o : get k (put k v o) = Some v.
Proof.
  induction o as [|[k' v'] o IH]; simpl.
  - by rewrite decide_True.
  - destruct (decide (k' = k)) as [->|Hne]; simpl.
    + by rewrite decide_True.
    + by rewrite decide_False.
Qed.

Lemma get_put_ne k k' v o : k ≠ k' → get k' (put k v o) = get k' o.
Proof.
  intros Hne. induction o as [|[k1 v1] o IH]; simpl.
  - by rewrite decide_False.
  - destruct (decide (k1 = k)) as [->|Hk]; simpl.
    + by rewrite !decide_False.
    + by rewrite IH.
Qed.

Lemma get_remove_eq k o : get k (remove k o) = None.
Proof.
  induction o as [|[k' v'] o IH]; simpl; [done|].
  destruct (decide (k' = k)); simpl; [done|]. by rewrite decide_False.
Qed.

Lemma get_remove_ne k k' o : k ≠ k' → get k' (remove k o) = get k' o.
Proof.
  intros Hne. induction o as [|[k1 v1] o IH]; simpl; [done|].
  destruct (decide (k1 = k)) as [->|Hk]; simpl.
  - by rewrite decide_False.
  - by rewrite IH.
Qed.

Lemma get_None k o : get k o = None ↔ k ∉ keys o.
Proof.
  unfold keys. induction o as [|[k' v'] o IH]; csimpl.
  - split; [intros _; apply not_elem_of_nil | done].
  - rewrite not_elem_of_cons. destruct (decide (k' = k)) as [->|Hne].
    + split; [done | intros [? _]; done].
    + rewrite IH. split; [intros ?; split; congruence | by intros [_ ?]].
Qed.

Lemma get_Some_key k v o : get k o = Some v → k ∈ keys o.
Proof.
  intros Hget. destruct (decide (k ∈ keys o)) as [|Hn]; [done|].
  apply get_None in Hn. congruence.
Qed.

Lemma get_Some_elem k v o : get k o = Some v → (k, v) ∈ o.
Proof.
  induction o as [|[k' v'] o IH]; simpl; [done|].
  destruct (decide (k' = k)) as [->|Hne].
  - intros [= ->]. apply list_elem_of_here.
  - intros Hget. apply list_elem_of_further. auto.
Qed.

(** Deleting a key that is not there changes nothing. *)
Lemma remove_absent k o : get k o = None → remove k o = o.
Proof.
  induction o as [|[k' v'] o IH]; simpl; [done|].
  destruct (decide (k' = k)); [done|]. intros Hget. by rewrite IH.
Qed.

Lemma keys_put k v o :
  keys (put k v o) =
    match get k o with Some _ => keys o | None => keys o ++ [k] end.
Proof.
  unfold keys. induction o as [|[k' v'] o IH]; csimpl; [done|].
  destruct (decide (k' = k)) as [->|Hne]; csimpl; [done|].
  rewrite IH. by destruct (get k o).
Qed.

Lemma keys_remove_subseteq k o : keys (remove k o) ⊆ keys o.
Proof.
  unfold keys. induction o as [|[k' v'] o IH]; csimpl; [done|].
  destruct (decide (k' = k)); csimpl.
  - intros x Hx. apply elem_of_cons. right. by apply IH.
  - intros x. rewrite !elem_of_cons. intros [->|Hx]; [by left|].
    right. by apply IH.
Qed.

Lemma NoDup_keys_put k v o : NoDup (keys o) → NoDup (keys (put k v o)).
Proof.
  intros Hnd. rewrite keys_put. destruct (get k o) eqn:Hget; [done|].
  apply NoDup_app. split_and!; [done| |apply NoDup_singleton].
  intros x Hx ->%list_elem_of_singleton. by apply get_None in Hget.
Qed.

Lemma NoDup_keys_remove k o : NoDup (keys o) → NoDup (keys (remove k o)).
Proof.
  unfold keys. induction o as [|[k' v'] o IH]; csimpl; [done|].
  rewrite NoDup_cons. intros [Hk' Hnd].
  destruct (decide (k' = k)); csimpl; [by apply IH|].
  apply NoDup_cons. split; [|by apply IH].
  intros Hin. apply Hk'. by eapply keys_remove_subseteq.
Qed.
End facts.
End JsObjectFacts.

(** ** The room users loop *)

Section collect.
Import JsObject JsObjectFacts.
Implicit Types (cond : SocketId → User → bool) (au : list (SocketId * User)).

Lemma collect_room_users_omap cond au :
  collect_room_users cond au = omap (pushed cond au) (keys au).
Proof.
  unfold collect_room_users.
  enough (∀ ks acc,
    foldl (λ roomUsers sid,
             match get sid au with
             | Some u => if cond sid u then roomUsers ++ [(sid, username u)]
                         else roomUsers
             | None => roomUsers
             end) acc ks = acc ++ omap (pushed cond au) ks) as Hgen
    by apply (Hgen _ []).
  induction ks as [|sid ks IH]; intros acc; csimpl.
  - by rewrite app_nil_r.
  - rewrite IH. unfold pushed at 2.
    destruct (get sid au) as [u|]; [|done].
    destruct (cond sid u); [|done]. by rewrite <- app_assoc.
Qed.

(** The list holds exactly the keys whose entry passes the test, each
    with the user name of its entry. *)
Lemma elem_of_collect_room_users cond au c name :
  (c, name) ∈ collect_room_users cond au ↔
  ∃ u, get c au = Some u ∧ cond c u = true ∧ name = username u.
Proof.
  rewrite collect_room_users_omap, list_elem_of_omap. split.
  - intros (sid & _ & Hp). unfold pushed in Hp.
    destruct (get sid au) as [u|] eqn:Hget; [|done].
    destruct (cond sid u) eqn:Hc; [|done].
    injection Hp as <- <-. eauto.
  - intros (u & Hget & Hc & ->). exists c. split.
    + by eapply get_Some_key.
    + unfold pushed. by rewrite Hget, Hc.
Qed.

Lemma listed_collect_room_users cond au c :
  c ∈ listed (collect_room_users cond au) ↔
  ∃ u, get c au = Some u ∧ cond c u = true.
Proof.
  unfold listed. rewrite list_elem_of_fmap. split.
  - intros ([c' name] & -> & Hin).
    apply elem_of_collect_room_users in Hin as (u & ? & ? & _). eauto.
  - intros (u & Hget & Hc). exists (c, username u). split; [done|].
    apply elem_of_collect_room_users. eauto.
Qed.

(** No socket is listed twice. *)
Lemma NoDup_listed_collect_room_users cond au :
  NoDup (keys au) → NoDup (listed (collect_room_users cond au)).
Proof.
  rewrite collect_room_users_omap. unfold listed.
  generalize (keys au) as ks.
  induction ks as [|sid ks IH]; csimpl; [constructor|].
  rewrite NoDup_cons. intros [Hsid Hnd].
  destruct (pushed cond au sid) as [[c name]|] eqn:Hp; csimpl; [|by apply IH].
  apply NoDup_cons. split; [|by apply IH].
  assert (c = sid) as ->.
  { unfold pushed in Hp. destruct (get sid au) as [u|]; [|done].
    destruct (cond sid u); [|done]. by injection Hp. }
  intros ([c' name'] & Heq & Hin)%list_elem_of_fmap. simpl in Heq. subst c'.
  apply list_elem_of_omap in Hin as (sid' & Hin & Hp').
  unfold pushed in Hp'. destruct (get sid' au) as [u|]; [|done].
  destruct (cond sid' u); [|done]. injection Hp' as -> _. done.
Qed.
End collect.

(** ** Socket.IO rooms *)

Lemma room_members_socket_join c r r' st :
  room_members r' (socket_join c r st) =
    if decide (r = r') then {[c]} ∪ room_members r st else room_members r' st.
Proof.
  unfold room_members, socket_join; simpl. rewrite lookup_insert.
  by destruct (decide (r = r')) as [->|].
Qed.

Lemma room_members_socket_close c r st :
  room_members r (socket_close c st) = room_members r st ∖ {[c]}.
Proof.
  unfold room_members, socket_close; simpl. rewrite lookup_fmap.
  destruct (rooms st !! r); simpl; [done|].
  apply set_eq. intros x. rewrite elem_of_difference, elem_of_empty. tauto.
Qed.

Lemma room_members_connect c r st :
  room_members r (connect c st) =
    if decide (c = r) then {[c]} ∪ room_members r st else room_members r st.
Proof.
  unfold connect. rewrite room_members_socket_join.
  repeat case_decide; subst; solve [reflexivity | congruence].
Qed.

(** ** What each event does to the state *)

Lemma handle_next_state c now e st : (handle c now e st).1 = next_state c e st.
Proof.
  destruct e; simpl; try done.
  - unfold on_join_room. by case_match.
  - unfold on_send_message. by repeat case_match.
  - unfold on_send_image. by repeat case_match.
  - unfold on_get_room_users. by case_match.
  - unfold on_call_user. by repeat case_match.
  - unfold on_accept_call. by repeat case_match.
  - unfold on_reject_call. by repeat case_match.
  - unfold on_end_call. by case_match.
  - unfold on_disconnect.
    destruct (JsObject.get c (activeUsers (socket_close c st))) eqn:Hget;
      simpl; [done|].
    unfold set_activeUsers. rewrite JsObjectFacts.remove_absent by done.
    by destruct st.
Qed.

(** ** The invariant of a running server *)

Lemma consistent_initial : consistent initial.
Proof.
  split; simpl.
  - constructor.
  - intros c u. unfold registry_lookup. simpl. done.
  - intros c Hc. by apply elem_of_empty in Hc.
  - intros r c. unfold room_members. simpl. rewrite lookup_empty. simpl.
    intros Hc. by apply elem_of_empty in Hc.
Qed.

Lemma consistent_connect st c : consistent st → consistent (connect c st).
Proof.
  intros [Hk Hreg Hown Hrooms]. split.
  - done.
  - intros c' u Hget. destruct (Hreg c' u Hget) as [Hs Hm].
    rewrite room_members_connect. simpl.
    split; [set_solver|]. case_decide; set_solver.
  - intros c'. rewrite room_members_connect. simpl.
    intros [->%elem_of_singleton|Hc']%elem_of_union.
    + rewrite decide_True by done. set_solver.
    + specialize (Hown c' Hc'). case_decide; set_solver.
  - intros r c'. rewrite room_members_connect. simpl.
    case_decide; [|specialize (Hrooms r c'); set_solver].
    intros [?|?]%elem_of_union; [set_solver|].
    specialize (Hrooms r c'). set_solver.
Qed.

Lemma consistent_join st c name room :
  consistent st → c ∈ sockets st →
  consistent (socket_join c room
                (set_activeUsers (JsObject.put c (mkUser name room)) st)).
Proof.
  intros [Hk Hreg Hown Hrooms] Hc. split.
  - simpl. by apply JsObjectFacts.NoDup_keys_put.
  - intros c' u. unfold registry_lookup. simpl.
    rewrite room_members_socket_join.
    destruct (decide (c = c')) as [<-|Hne].
    + rewrite JsObjectFacts.get_put_eq. intros [= <-]. simpl.
      split; [done|]. rewrite decide_True by done. set_solver.
    + rewrite JsObjectFacts.get_put_ne by done. intros Hget.
      destruct (Hreg c' u Hget) as [Hs Hm]. split; [done|].
      case_decide; [subst|]; set_solver.
  - intros c' Hc'. rewrite room_members_socket_join.
    specialize (Hown c' Hc'). case_decide; [subst|]; set_solver.
  - intros r c'. rewrite room_members_socket_join. simpl.
    specialize (Hrooms r c').
    case_decide; [subst|]; [|set_solver].
    intros [->%elem_of_singleton|?]%elem_of_union; [done|set_solver].
Qed.

Lemma consistent_disconnect st c :
  consistent st →
  consistent (set_activeUsers (JsObject.remove c) (socket_close c st)).
Proof.
  intros [Hk Hreg Hown Hrooms]. split.
  - simpl. by apply JsObjectFacts.NoDup_keys_remove.
  - intros c' u. unfold registry_lookup. simpl.
    destruct (decide (c = c')) as [<-|Hne].
    + by rewrite JsObjectFacts.get_remove_eq.
    + rewrite JsObjectFacts.get_remove_ne by done. intros Hget.
      destruct (Hreg c' u Hget) as [Hs Hm].
      change (room_members (roomId u) _)
        with (room_members (roomId u) (socket_close c st)).
      rewrite room_members_socket_close. set_solver.
  - intros c'. simpl.
    change (room_members c' _) with (room_members c' (socket_close c st)).
    rewrite room_members_socket_close. intros Hc'.
    specialize (Hown c'). set_solver.
  - intros r c'. simpl.
    change (room_members r _) with (room_members r (socket_close c st)).
    rewrite room_members_socket_close. specialize (Hrooms r c'). set_solver.
Qed.

Lemma consistent_handle st c now e :
  consistent st → c ∈ sockets st → consistent (handle c now e st).1.
Proof.
  intros Hst Hc. rewrite handle_next_state.
  destruct e; simpl; try done.
  - case_match; [done|]. by apply consistent_join.
  - by apply consistent_disconnect.
Qed.

Lemma reachable_consistent st : reachable st → consistent st.
Proof.
  induction 1 as [|st c _ IH _|st c now e _ IH Hc].
  - apply consistent_initial.
  - by apply consistent_connect.
  - by apply consistent_handle.
Qed.

Lemma reachable_step st i :
  reachable st → admissible i st → reachable (step i st).1.
Proof.
  intros Hst Hi. destruct i as [c|c now e]; simpl in *.
  - by apply reachable_connect.
  - by apply reachable_receive.
Qed.

Lemma run_cons i inputs st :
  run (i :: inputs) st =
    ((run inputs (step i st).1).1, (step i st).2 ++ (run inputs (step i st).1).2).
Proof.
  simpl. destruct (step i st) as [st1 out1]; simpl.
  by destruct (run inputs st1).
Qed.

Lemma reachable_run inputs st :
  reachable st → admissible_run inputs st → reachable (run inputs st).1.
Proof.
  revert st. induction inputs as [|i inputs IH]; intros st Hst Hadm.
  - done.
  - destruct Hadm as [Hi Hrest]. rewrite run_cons; simpl.
    apply IH; [by apply reachable_step | done].
Qed.

(** ** Example runs *)

Module ScenarioFacts.
Import Scenario.

Ltac run_is_admissible :=
  apply reachable_run; [apply reachable_initial|];
  apply (bool_decide_unpack _); vm_compute; exact I.

Lemma reachable_two_joined : reachable (after two_joined).
Proof. run_is_admissible. Defined.

Lemma reachable_mid_call : reachable (after mid_call).
Proof. run_is_admissible. Defined.

Lemma reachable_rejoined : reachable (after rejoined).
Proof. run_is_admissible. Defined.

Lemma reachable_two_rooms : reachable (after two_rooms).
Proof. run_is_admissible. Defined.
End ScenarioFacts.

(** ** The registry: register, lookup, remove *)

Lemma activeUsers_handle c now e st :
  activeUsers (handle c now e st).1 =
    match e with
    | JoinRoom name room =>
        if bool_decide (name = "") || bool_decide (room = "")
        then activeUsers st
        else JsObject.put c (mkUser name room) (activeUsers st)
    | Disconnect => JsObject.remove c (activeUsers st)
    | _ => activeUsers st
    end.
Proof.
  rewrite handle_next_state. destruct e; simpl; try done. by case_match.
Qed.

Lemma nonempty_is_truthy (name room : string) :
  name ≠ "" → room ≠ "" →
  bool_decide (name = "") || bool_decide (room = "") = false.
Proof. intros Hn Hr. by rewrite !bool_decide_eq_false_2. Qed.

Lemma registry_lookup_join c c' now name room st :
  name ≠ "" → room ≠ "" →
  registry_lookup c' (handle c now (JoinRoom name room) st).1 =
    if decide (c = c') then Some (mkUser name room) else registry_lookup c' st.
Proof.
  intros Hn Hr. unfold registry_lookup.
  rewrite activeUsers_handle, nonempty_is_truthy by done.
  case_decide as Hc.
  - subst c'. apply JsObjectFacts.get_put_eq.
  - by apply JsObjectFacts.get_put_ne.
Qed.

Lemma registry_lookup_disconnect c c' now st :
  registry_lookup c' (handle c now Disconnect st).1 =
    if decide (c = c') then None else registry_lookup c' st.
Proof.
  unfold registry_lookup. rewrite activeUsers_handle.
  case_decide as Hc.
  - subst c'. apply JsObjectFacts.get_remove_eq.
  - by apply JsObjectFacts.get_remove_ne.
Qed.

Lemma disconnect_unregistered c now st :
  registry_lookup c st = None →
  handle c now Disconnect st = (socket_close c st, []).
Proof.
  unfold registry_lookup. intros Hget. simpl. unfold on_disconnect.
  simpl. by rewrite Hget.
Qed.

(** C4. After a ['join-room'] of connection [c] with non-empty user name
    and room id, looking [c] up gives the session [{name, room}]; after
    the removal done by ['disconnect'], looking [c] up gives nothing;
    removing a connection that is not registered sends nothing and leaves
    [activeUsers] as it was, so that a second removal changes nothing. *)
Theorem register_lookup_remove (st : Server) (c now name room : string) :
  name ≠ "" → room ≠ "" →
  registry_lookup c (handle c now (JoinRoom name room) st).1
    = Some (mkUser name room) ∧
  registry_lookup c (handle c now Disconnect st).1 = None ∧
  (registry_lookup c st = None →
     activeUsers (handle c now Disconnect st).1 = activeUsers st ∧
     (handle c now Disconnect st).2 = []) ∧
  activeUsers (handle c now Disconnect (handle c now Disconnect st).1).1
    = activeUsers (handle c now Disconnect st).1.
Proof.
  intros Hn Hr. split_and!.
  - rewrite registry_lookup_join by done. by rewrite decide_True.
  - rewrite registry_lookup_disconnect. by rewrite decide_True.
  - intros Hnone. by rewrite disconnect_unregistered.
  - rewrite (disconnect_unregistered c now (handle c now Disconnect st).1).
    + done.
    + rewrite registry_lookup_disconnect. by rewrite decide_True.
Qed.

Lemma register_lookup_remove_witness :
  let st := connect "A" initial in
  registry_lookup "A" (handle "A" "10:00:00" (JoinRoom "alice" "R1") st).1
    = Some (mkUser "alice" "R1") ∧
  registry_lookup "A" (handle "A" "10:00:00" Disconnect st).1 = None ∧
  activeUsers (handle "A" "10:00:00" Disconnect st).1 = activeUsers st ∧
  (handle "A" "10:00:00" Disconnect st).2 = [].
Proof.
  intros st.
  destruct (register_lookup_remove st "A" "10:00:00" "alice" "R1")
    as (Hreg & Hrem & Hnoop & _); [done|done|].
  destruct Hnoop as [Hau Hout]; [reflexivity|].
  split_and!; assumption.
Defined.

(** C10. An event on connection [c] leaves the session of every other
    connection [c'] as it was: ['join-room'] writes the entry of [c] only,
    ['disconnect'] deletes the entry of [c] only, and every other event
    leaves [activeUsers] unchanged. *)
Theorem handlers_touch_own_entry_only (st : Server) (c now : string)
    (e : ClientEvent) (c' : SocketId) :
  c' ≠ c →
  registry_lookup c' (handle c now e st).1 = registry_lookup c' st ∧
  activeUsers (handle c now e st).1 =
    match e with
    | JoinRoom name room =>
        if bool_decide (name = "") || bool_decide (room = "")
        then activeUsers st
        else JsObject.put c (mkUser name room) (activeUsers st)
    | Disconnect => JsObject.remove c (activeUsers st)
    | _ => activeUsers st
    end.
Proof.
  intros Hne. split; [|apply activeUsers_handle].
  unfold registry_lookup. rewrite activeUsers_handle.
  destruct e; try done.
  - case_match; [done|]. apply JsObjectFacts.get_put_ne. congruence.
  - apply JsObjectFacts.get_remove_ne. congruence.
Qed.

Lemma handlers_touch_own_entry_only_witness :
  let st := Scenario.after Scenario.two_joined in
  registry_lookup "B" (handle "A" "10:03:00" Disconnect st).1
    = Some (mkUser "bob" "R1") ∧
  registry_lookup "B" (handle "A" "10:03:00" (JoinRoom "al" "R2") st).1
    = Some (mkUser "bob" "R1").
Proof.
  intros st. split.
  - destruct (handlers_touch_own_entry_only st "A" "10:03:00" Disconnect "B")
      as [-> _]; [done|reflexivity].
  - destruct (handlers_touch_own_entry_only st "A" "10:03:00"
                (JoinRoom "al" "R2") "B") as [-> _]; [done|reflexivity].
Defined.

(** ** Membership lists *)

Lemma collect_lists_room R st :
  lists_room
    (collect_room_users (λ sid u, bool_decide (roomId u = R)) (activeUsers st))
    R st.
Proof.
  intros c name. rewrite elem_of_collect_room_users.
  unfold registry_lookup. split.
  - intros ([n r] & Hget & Hc & ->). simpl in *.
    apply bool_decide_eq_true in Hc. by subst r.
  - intros Hget. eexists. split; [exact Hget|]. simpl.
    by rewrite bool_decide_eq_true_2.
Qed.

Lemma collect_lists_room_except x R st :
  lists_room_except x
    (collect_room_users
       (λ sid u, bool_decide (roomId u = R) && negb (bool_decide (sid = x)))
       (activeUsers st))
    R st.
Proof.
  intros c name. rewrite elem_of_collect_room_users.
  unfold registry_lookup. split.
  - intros ([n r] & Hget & Hc & ->). simpl in *.
    apply andb_true_iff in Hc as [Hr Hx].
    apply bool_decide_eq_true in Hr. apply negb_true_iff in Hx.
    apply bool_decide_eq_false in Hx. by subst r.
  - intros [Hx Hget]. eexists. split; [exact Hget|]. simpl.
    by rewrite bool_decide_eq_true_2, bool_decide_eq_false_2.
Qed.

Lemma lists_room_listed l R st c :
  lists_room l R st →
  c ∈ listed l ↔ ∃ name, registry_lookup c st = Some (mkUser name R).
Proof.
  intros Hl. unfold listed. rewrite list_elem_of_fmap. split.
  - intros ([c' name] & -> & Hin). exists name. by apply Hl.
  - intros [name Hget]. exists (c, name). split; [done|]. by apply Hl.
Qed.

(** On a running server no connection is listed twice: the list is a
    set. *)
Lemma room_users_list_NoDup cond st :
  reachable st → NoDup (listed (collect_room_users cond (activeUsers st))).
Proof.
  intros Hst. apply NoDup_listed_collect_room_users.
  apply (consistent_keys st (reachable_consistent st Hst)).
Qed.

(** What a valid ['join-room'] sends: the acknowledgement, the join notice
    to the others in the room, and the users list of the room, computed on
    the registry that holds the new session. *)
Lemma join_room_sends c now name room st :
  name ≠ "" → room ≠ "" →
  let st' := (handle c now (JoinRoom name room) st).1 in
  ∃ l,
    (handle c now (JoinRoom name room) st).2 =
      [ mkEmit {[c]} (JoinedRoom name room);
        mkEmit (room_members room st' ∖ room_members c st')
               (UserJoined name (name +:+ " joined the room"));
        mkEmit (room_members room st') (RoomUsersList l) ] ∧
    lists_room l room st'.
Proof.
  intros Hn Hr st'.
  exists (collect_room_users (λ sid u, bool_decide (roomId u = room))
                             (activeUsers st')).
  split; [|apply collect_lists_room].
  unfold st'. simpl. unfold on_join_room.
  by rewrite nonempty_is_truthy.
Qed.

(** What ['disconnect'] of a registered connection sends: the leave
    notice, then the users list of the room computed after the deletion,
    both to sockets left in the room; Socket.IO has taken the closing
    socket out of every room by then. *)
Lemma disconnect_sends c now u st :
  registry_lookup c st = Some u →
  let st' := (handle c now Disconnect st).1 in
  ∃ l,
    (handle c now Disconnect st).2 =
      [ mkEmit (room_members (roomId u) st' ∖ room_members c st')
               (UserLeft (username u) (username u +:+ " left the room"));
        mkEmit (room_members (roomId u) st') (RoomUsersList l) ] ∧
    lists_room l (roomId u) st' ∧
    c ∉ listed l.
Proof.
  intros Hget st'.
  exists (collect_room_users (λ sid u0, bool_decide (roomId u0 = roomId u))
                             (activeUsers st')).
  split; [|split].
  - unfold st'. simpl. unfold on_disconnect. simpl.
    unfold registry_lookup in Hget. by rewrite Hget.
  - apply collect_lists_room.
  - rewrite listed_collect_room_users. intros (u' & Hget' & _).
    unfold st' in Hget'. rewrite activeUsers_handle in Hget'.
    by rewrite JsObjectFacts.get_remove_eq in Hget'.
Qed.

(** What ['get-room-users'] of a registered connection sends: to the
    requester alone, the users of its room other than itself. *)
Lemma get_room_users_sends c now u st :
  registry_lookup c st = Some u →
  ∃ l,
    handle c now GetRoomUsers st = (st, [mkEmit {[c]} (RoomUsersList l)]) ∧
    lists_room_except c l (roomId u) st.
Proof.
  intros Hget.
  exists (collect_room_users
            (λ sid u0, bool_decide (roomId u0 = roomId u)
                       && negb (bool_decide (sid = c)))
            (activeUsers st)).
  split; [|apply collect_lists_room_except].
  simpl. unfold on_get_room_users.
  unfold registry_lookup in Hget. by rewrite Hget.
Qed.

(** C2, as stated, fails for ['get-room-users']: alice and bob are both in
    R1, yet the list alice gets names bob alone. *)
Lemma get_room_users_omits_requester :
  let st := Scenario.after Scenario.two_joined in
  registry_lookup "A" st = Some (mkUser "alice" "R1") ∧
  (handle "A" "10:03:00" GetRoomUsers st).2
    = [mkEmit {["A"]} (RoomUsersList [("B", "bob")])] ∧
  ¬ lists_room [("B", "bob")] "R1" st.
Proof.
  intros st. split_and!.
  - reflexivity.
  - vm_compute. reflexivity.
  - intros Hl. specialize (Hl "A" "alice") as [_ Hl].
    specialize (Hl eq_refl). apply list_elem_of_singleton in Hl. discriminate.
Qed.

(** C2, amended. The users list broadcast by a valid ['join-room'] names
    exactly the connections whose session, after the join, has that room
    id (the joiner among them); the one broadcast by ['disconnect'] names
    exactly those whose session, after the removal, has the room id of the
    connection that left (which is not among them); the one sent in answer
    to ['get-room-users'] names exactly the connections other than the
    requester whose session has the requester's room id. *)
Theorem room_users_lists (st : Server) (c now : string) :
  (∀ name room, name ≠ "" → room ≠ "" →
     let st' := (handle c now (JoinRoom name room) st).1 in
     ∃ l, last (handle c now (JoinRoom name room) st).2
            = Some (mkEmit (room_members room st') (RoomUsersList l)) ∧
          lists_room l room st' ∧ c ∈ listed l) ∧
  (∀ u, registry_lookup c st = Some u →
     let st' := (handle c now Disconnect st).1 in
     ∃ l, last (handle c now Disconnect st).2
            = Some (mkEmit (room_members (roomId u) st') (RoomUsersList l)) ∧
          lists_room l (roomId u) st' ∧ c ∉ listed l) ∧
  (∀ u, registry_lookup c st = Some u →
     ∃ l, handle c now GetRoomUsers st
            = (st, [mkEmit {[c]} (RoomUsersList l)]) ∧
          lists_room_except c l (roomId u) st).
Proof.
  split_and!.
  - intros name room Hn Hr st'.
    destruct (join_room_sends c now name room st Hn Hr) as (l & Hout & Hl).
    exists l. split_and!; [by rewrite Hout | done |].
    eapply lists_room_listed; [exact Hl|]. exists name.
    unfold st'. rewrite registry_lookup_join by done. by rewrite decide_True.
  - intros u Hu st'.
    destruct (disconnect_sends c now u st Hu) as (l & Hout & Hl & Hc).
    exists l. split_and!; [by rewrite Hout | done | done].
  - intros u Hu. by apply get_room_users_sends.
Qed.

Lemma room_users_lists_witness :
  let st := Scenario.after Scenario.two_joined in
  (∃ l, last (handle "A" "10:03:00" (JoinRoom "alice" "R2") st).2
          = Some (mkEmit
                    (room_members "R2"
                       (handle "A" "10:03:00" (JoinRoom "alice" "R2") st).1)
                    (RoomUsersList l)) ∧
        lists_room l "R2" (handle "A" "10:03:00" (JoinRoom "alice" "R2") st).1
        ∧ "A" ∈ listed l) ∧
  (∃ l, handle "A" "10:03:00" GetRoomUsers st
          = (st, [mkEmit {["A"]} (RoomUsersList l)]) ∧
        lists_room_except "A" l "R1" st).
Proof.
  intros st.
  destruct (room_users_lists st "A" "10:03:00") as (Hjoin & _ & Hget).
  split.
  - apply Hjoin; done.
  - apply (Hget (mkUser "alice" "R1")). reflexivity.
Defined.

(** ** Disconnect *)

Lemma disconnect_sends_no_call_signal c now st :
  Forall (λ em, is_call_signal (event em) = false)
         (handle c now Disconnect st).2.
Proof.
  simpl. unfold on_disconnect. case_match; simpl.
  - repeat constructor.
  - constructor.
Qed.

(** A registered socket sits in the Socket.IO room of its session. *)
Lemma registered_in_room st c u :
  reachable st → registry_lookup c st = Some u →
  c ∈ room_members (roomId u) st.
Proof.
  intros Hst Hu. by apply (consistent_registered st (reachable_consistent st Hst)).
Qed.

(** C1, as stated, fails: alice called bob and bob accepted; when alice's
    connection closes, nothing of the call signalling, ['call-ended']
    included, is sent to bob. *)
Lemma disconnect_mid_call_sends_no_call_ended :
  let st := Scenario.after Scenario.mid_call in
  registry_lookup "A" st = Some (mkUser "alice" "R1") ∧
  (handle "A" "10:05:00" Disconnect st).2 =
    [ mkEmit {["B"]} (UserLeft "alice" "alice left the room");
      mkEmit {["B"]} (RoomUsersList [("B", "bob")]) ] ∧
  ¬ call_signal_sent_to "B" (handle "A" "10:05:00" Disconnect st).2.
Proof.
  intros st. split_and!; [reflexivity | vm_compute; reflexivity |].
  intros (em & Hin & _ & Hev).
  pose proof (disconnect_sends_no_call_signal "A" "10:05:00" st) as Hall.
  rewrite Forall_forall in Hall. specialize (Hall em Hin). congruence.
Qed.

(** C1, amended. When a registered connection [c] closes, the server
    sends, in this order, the leave notice and the refreshed users list of
    the room of [c].  The list goes to the sockets left in that room,
    among them every other connection registered in the room; the leave
    notice goes to those of them that are not in the room named by the
    socket id of [c].  The session of [c] is removed and the list names
    exactly the connections registered in the room after the removal, [c]
    not among them.  No event of the call signalling is sent: the server
    keeps no call session. *)
Theorem disconnect_of_registered (st : Server) (c now : string) (u : User) :
  reachable st →
  registry_lookup c st = Some u →
  let st' := (handle c now Disconnect st).1 in
  ∃ l,
    (handle c now Disconnect st).2 =
      [ mkEmit (room_members (roomId u) st ∖ room_members c st)
               (UserLeft (username u) (username u +:+ " left the room"));
        mkEmit (room_members (roomId u) st ∖ {[c]}) (RoomUsersList l) ] ∧
    registry_lookup c st' = None ∧
    lists_room l (roomId u) st' ∧
    (c ∉ listed l) ∧
    (∀ c' u', c' ≠ c → registry_lookup c' st = Some u' →
              roomId u' = roomId u →
              c' ∈ room_members (roomId u) st ∖ {[c]} ∧
              (c' ∉ room_members c st →
               c' ∈ room_members (roomId u) st ∖ room_members c st)) ∧
    ∀ peer, ¬ call_signal_sent_to peer (handle c now Disconnect st).2.
Proof.
  intros Hst Hu st'.
  destruct (disconnect_sends c now u st Hu) as (l & Hout & Hl & Hc).
  assert (c ∈ room_members c st) as Hown.
  { destruct (reachable_consistent st Hst) as [_ Hreg Hown _].
    apply Hown. by apply (Hreg c u). }
  exists l. split_and!; try done.
  - rewrite Hout. fold st'.
    assert (∀ r, room_members r st' = room_members r st ∖ {[c]}) as Hclose.
    { intros r. unfold st'. rewrite handle_next_state. simpl.
      change (room_members r (set_activeUsers _ _))
        with (room_members r (socket_close c st)).
      apply room_members_socket_close. }
    rewrite !Hclose.
    replace (room_members (roomId u) st ∖ {[c]} ∖ (room_members c st ∖ {[c]}))
      with (room_members (roomId u) st ∖ room_members c st) by set_solver.
    done.
  - unfold st'. rewrite registry_lookup_disconnect. by rewrite decide_True.
  - intros c' u' Hne Hu' Hroom.
    pose proof (registered_in_room st c' u' Hst Hu') as Hin.
    rewrite Hroom in Hin. set_solver.
  - intros peer (em & Hin & _ & Hev).
    pose proof (disconnect_sends_no_call_signal c now st) as Hall.
    rewrite Forall_forall in Hall. specialize (Hall em Hin). congruence.
Qed.

Lemma disconnect_of_registered_witness :
  let st := Scenario.after Scenario.mid_call in
  ∃ l,
    (handle "A" "10:05:00" Disconnect st).2 =
      [ mkEmit (room_members "R1" st ∖ room_members "A" st)
               (UserLeft "alice" "alice left the room");
        mkEmit (room_members "R1" st ∖ {["A"]}) (RoomUsersList l) ] ∧
    ("A" ∉ listed l) ∧
    "B" ∈ room_members "R1" st ∖ {["A"]} ∧
    "B" ∈ room_members "R1" st ∖ room_members "A" st.
Proof.
  intros st.
  destruct (disconnect_of_registered st "A" "10:05:00" (mkUser "alice" "R1")
              ScenarioFacts.reachable_mid_call eq_refl)
    as (l & Hout & _ & _ & Hc & Hmembers & _).
  destruct (Hmembers "B" (mkUser "bob" "R1")) as [Hlist Hleft];
    [done | reflexivity | reflexivity |].
  exists l. split_and!; [exact Hout | exact Hc | exact Hlist |].
  apply Hleft. apply (bool_decide_unpack _). vm_compute. exact I.
Defined.

(** ** The message relay *)

Lemma send_message_guard (message : string) :
  bool_decide (message = "") || bool_decide (trim message = "")
    = bool_decide (trim message = "").
Proof.
  destruct (decide (message = "")) as [->|Hne].
  - reflexivity.
  - by rewrite (bool_decide_eq_false_2 (message = "")).
Qed.

(** Every connection registered in the sender's room is in the Socket.IO
    room the text goes to. *)
Lemma room_broadcast_reaches_members st u c' u' :
  reachable st → registry_lookup c' st = Some u' → roomId u' = roomId u →
  c' ∈ room_members (roomId u) st.
Proof.
  intros Hst Hu' <-. by apply registered_in_room.
Qed.

(** C3. The text bob sends to R1 reaches alice, whose session was
    overwritten by a later join into R2: the ['join-room'] handler never
    takes the socket out of the Socket.IO room it joined before. *)
Theorem former_room_broadcast_reaches_rejoined :
  let st := Scenario.after Scenario.rejoined in
  registry_lookup "A" st = Some (mkUser "alice" "R2") ∧
  registry_lookup "B" st = Some (mkUser "bob" "R1") ∧
  (handle "B" "10:03:00" (SendMessage "hello") st).2
    = [mkEmit {["A"; "B"]} (ReceiveMessage "bob" "hello" "10:03:00")].
Proof.
  intros st. split_and!; [reflexivity | reflexivity |].
  vm_compute. reflexivity.
Qed.

(** C5, as stated, fails on a text with white space around it: what is
    broadcast is the trimmed text. *)
Lemma send_message_broadcasts_trimmed_text :
  let st := Scenario.after Scenario.two_joined in
  (handle "A" "10:03:00" (SendMessage "  hello ") st).2
    = [mkEmit {["A"; "B"]} (ReceiveMessage "alice" "hello" "10:03:00")] ∧
  ¬ broadcasts_text_verbatim "A" "10:03:00" "  hello " st.
Proof.
  intros st.
  assert ((handle "A" "10:03:00" (SendMessage "  hello ") st).2
            = [mkEmit {["A"; "B"]} (ReceiveMessage "alice" "hello" "10:03:00")])
    as Hout by (vm_compute; reflexivity).
  split; [exact Hout|].
  intros (u & em & _ & Hin & Hev). rewrite Hout in Hin.
  apply list_elem_of_singleton in Hin. subst em. simpl in Hev.
  discriminate.
Qed.

(** C5, amended. ['send-message'] from a connection with no session sends
    an error to the sender alone; from a registered connection, a text
    that trims to empty sends nothing; any other text is broadcast,
    trimmed, with the sender's user name and the server's time stamp, to
    the Socket.IO room of the sender's room id, in which the sender and
    every connection registered in that room are.  The state is unchanged
    in all three cases. *)
Theorem send_message_outcome (st : Server) (c now text : string) :
  reachable st →
  match registry_lookup c st with
  | None =>
      handle c now (SendMessage text) st
        = (st, [mkEmit {[c]} (ErrorEvent "You must join a room first!")])
  | Some u =>
      if decide (trim text = "") then
        handle c now (SendMessage text) st = (st, [])
      else
        handle c now (SendMessage text) st
          = (st, [mkEmit (room_members (roomId u) st)
                         (ReceiveMessage (username u) (trim text) now)]) ∧
        c ∈ room_members (roomId u) st ∧
        ∀ c' u', registry_lookup c' st = Some u' → roomId u' = roomId u →
                 c' ∈ room_members (roomId u) st
  end.
Proof.
  intros Hst. simpl. unfold on_send_message, registry_lookup.
  destruct (JsObject.get c (activeUsers st)) as [u|] eqn:Hu; [|done].
  rewrite send_message_guard. case_decide as Htrim.
  - by rewrite bool_decide_eq_true_2.
  - rewrite bool_decide_eq_false_2 by done. split_and!.
    + done.
    + by apply registered_in_room.
    + intros c' u'. by apply room_broadcast_reaches_members.
Qed.

Lemma send_message_outcome_witness :
  let st := Scenario.after Scenario.two_joined in
  handle "A" "10:03:00" (SendMessage "  hello ") st
    = (st, [mkEmit (room_members "R1" st)
                   (ReceiveMessage "alice" (trim "  hello ") "10:03:00")]) ∧
  "A" ∈ room_members "R1" st ∧
  "B" ∈ room_members "R1" st.
Proof.
  intros st.
  pose proof (send_message_outcome st "A" "10:03:00" "  hello "
                ScenarioFacts.reachable_two_joined) as H.
  change (registry_lookup "A" st) with (Some (mkUser "alice" "R1")) in H.
  cbv beta iota in H.
  rewrite decide_False in H by (vm_compute; discriminate).
  destruct H as (Hout & Hself & Hall).
  split_and!; [exact Hout | exact Hself |].
  apply (Hall "B" (mkUser "bob" "R1")); reflexivity.
Defined.

(** ** Call signalling *)

(** C6. When a registered caller names a target that has no session, or
    whose session has another room id, ['call-user'] sends one
    ['call-error'] to the caller alone, no ['incoming-call'] to anyone,
    and leaves the state as it was. *)
Theorem call_user_target_not_found (st : Server) (c now target callType : string)
    (caller : User) :
  registry_lookup c st = Some caller →
  (registry_lookup target st = None ∨
   ∃ t, registry_lookup target st = Some t ∧ roomId t ≠ roomId caller) →
  handle c now (CallUser target callType) st
    = (st, [mkEmit {[c]} (CallError "User not found in room")]) ∧
  Forall (λ em, recipients em = {[c]} ∧ is_incoming_call (event em) = false)
         (handle c now (CallUser target callType) st).2.
Proof.
  unfold registry_lookup. intros Hc Htarget.
  assert (handle c now (CallUser target callType) st
            = (st, [mkEmit {[c]} (CallError "User not found in room")]))
    as Hout.
  { simpl. unfold on_call_user. rewrite Hc.
    destruct Htarget as [->|(t & -> & Hroom)]; [done|].
    by rewrite bool_decide_eq_true_2. }
  split; [exact Hout|].
  rewrite Hout. simpl. by repeat constructor.
Qed.

Lemma call_user_target_not_found_witness :
  let st := Scenario.after Scenario.two_rooms in
  handle "A" "10:03:00" (CallUser "C" "audio") st
    = (st, [mkEmit {["A"]} (CallError "User not found in room")]) ∧
  handle "A" "10:03:00" (CallUser "B" "video") st
    = (st, [mkEmit {["A"]} (CallError "User not found in room")]).
Proof.
  intros st. split.
  - apply (call_user_target_not_found st "A" "10:03:00" "C" "audio"
             (mkUser "alice" "R1")); [reflexivity|].
    left. reflexivity.
  - apply (call_user_target_not_found st "A" "10:03:00" "B" "video"
             (mkUser "alice" "R1")); [reflexivity|].
    right. exists (mkUser "bob" "R2"). split; [reflexivity|]. simpl. done.
Defined.

(** A connected socket is reached by what a sender addresses to its id,
    unless it sits in the room named by the sender's id. *)
Lemma addressed_socket_is_reached st c target :
  reachable st → target ∈ sockets st → target ∉ room_members c st →
  target ∈ room_members target st ∖ room_members c st.
Proof.
  intros Hst Htarget Hne.
  pose proof (consistent_own_room st (reachable_consistent st Hst) target Htarget).
  set_solver.
Qed.

(** A connected sender is in the room named by its id, so that
    [socket.to] leaves it out. *)
Lemma sender_in_own_room st c u :
  reachable st → registry_lookup c st = Some u → c ∈ room_members c st.
Proof.
  intros Hst Hu. destruct (reachable_consistent st Hst) as [_ Hreg Hown _].
  apply Hown. by apply (Hreg c u).
Qed.




(** ** Events from a connection with no session *)

(** C8, as stated, fails: C is connected but never joined; its
    ['get-room-users'] is dropped without any error, and its offer to
    alice is forwarded. *)
Lemma unregistered_not_always_reported :
  let st := Scenario.after Scenario.two_rooms in
  registry_lookup "C" st = None ∧
  ¬ error_reported_and_dropped "C" "10:03:00" GetRoomUsers st ∧
  ¬ error_reported_and_dropped "C" "10:03:00"
      (WebrtcOfferIn "A" (JStr "v=0")) st.
Proof.
  intros st. split_and!; [reflexivity | |].
  - intros (ev & _ & Heq).
    assert ((handle "C" "10:03:00" GetRoomUsers st).2 = []) as Hout
      by (vm_compute; reflexivity).
    rewrite Heq in Hout. cbn [snd] in Hout. discriminate.
  - intros (ev & Herr & Heq).
    assert ((handle "C" "10:03:00" (WebrtcOfferIn "A" (JStr "v=0")) st).2
              = [mkEmit {["A"]} (WebrtcOffer "C" (JStr "v=0"))]) as Hout
      by (vm_compute; reflexivity).
    rewrite Heq in Hout. cbn [snd] in Hout.
    injection Hout as _ Hev. subst ev. discriminate.
Qed.

(** C8, amended. From a connection with no session, ['send-message'] and
    ['send-image'] are answered by one error to the sender and dropped;
    ['get-room-users'], ['call-user'], ['accept-call'], ['reject-call']
    and ['end-call'] are dropped with nothing sent; the offer, answer and
    ICE candidate relays are forwarded all the same, to the sockets of the
    room named by the target that are not in the room named by the
    sender's id.  The state is unchanged in every case. *)
Theorem unregistered_actions (st : Server) (c now : string) :
  registry_lookup c st = None →
  (∀ message, handle c now (SendMessage message) st
     = (st, [mkEmit {[c]} (ErrorEvent "You must join a room first!")])) ∧
  (∀ imageUrl, handle c now (SendImage imageUrl) st
     = (st, [mkEmit {[c]} (ErrorEvent "You must join a room first!")])) ∧
  handle c now GetRoomUsers st = (st, []) ∧
  (∀ target callType, handle c now (CallUser target callType) st = (st, [])) ∧
  (∀ caller, handle c now (AcceptCall caller) st = (st, [])) ∧
  (∀ caller, handle c now (RejectCall caller) st = (st, [])) ∧
  (∀ target, handle c now (EndCall target) st = (st, [])) ∧
  (∀ target payload,
     handle c now (WebrtcOfferIn target payload) st
       = (st, [mkEmit (room_members target st ∖ room_members c st)
                      (WebrtcOffer c payload)]) ∧
     handle c now (WebrtcAnswerIn target payload) st
       = (st, [mkEmit (room_members target st ∖ room_members c st)
                      (WebrtcAnswer c payload)]) ∧
     handle c now (WebrtcIceCandidateIn target payload) st
       = (st, [mkEmit (room_members target st ∖ room_members c st)
                      (WebrtcIceCandidate c payload)])).
Proof.
  unfold registry_lookup. intros Hc. split_and!; intros; simpl.
  - unfold on_send_message. by rewrite Hc.
  - unfold on_send_image. by rewrite Hc.
  - unfold on_get_room_users. by rewrite Hc.
  - unfold on_call_user. by rewrite Hc.
  - unfold on_accept_call. by rewrite Hc.
  - unfold on_reject_call. by rewrite Hc.
  - unfold on_end_call. by rewrite Hc.
  - done.
Qed.

Lemma unregistered_actions_witness :
  let st := Scenario.after Scenario.two_rooms in
  handle "C" "10:03:00" (SendMessage "hi") st
    = (st, [mkEmit {["C"]} (ErrorEvent "You must join a room first!")]) ∧
  handle "C" "10:03:00" GetRoomUsers st = (st, []).
Proof.
  intros st.
  destruct (unregistered_actions st "C" "10:03:00") as (Hmsg & _ & Hget & _).
  - reflexivity.
  - split; [apply Hmsg | exact Hget].
Defined.

(** ** Accepting and rejecting a call *)

(** Without a session of the sender nothing is sent; nor when the id
    named has no session and is not a property name inherited from
    [Object.prototype]. *)
Lemma accept_reject_without_session st u c now :
  registry_lookup u st = None ∨
  (registry_lookup c st = None ∧ c ∉ JsObject.prototype_keys) →
  handle u now (AcceptCall c) st = (st, []) ∧
  handle u now (RejectCall c) st = (st, []).
Proof.
  unfold registry_lookup. simpl.
  unfold on_accept_call, on_reject_call, JsObject.truthy_at.
  intros [-> | [-> Hproto]]; [done|].
  rewrite bool_decide_eq_false_2 by done.
  by destruct (JsObject.get u (activeUsers st)).
Qed.




(** * Further properties of the handlers *)

(** ** The invariant, as seen from outside *)

(** X1. In every state a running server reaches, the keys of
    [activeUsers] are distinct, every connection with an entry is connected
    and sits in the Socket.IO room of its [roomId], every connected socket
    sits in the room named by its id, and rooms hold connected sockets
    only: nothing of a closed connection is left behind. *)
Theorem running_server_invariant (st : Server) :
  reachable st →
  NoDup (JsObject.keys (activeUsers st)) ∧
  (∀ c u, registry_lookup c st = Some u →
          c ∈ sockets st ∧ c ∈ room_members (roomId u) st) ∧
  (∀ c, c ∈ sockets st → c ∈ room_members c st) ∧
  (∀ r c, c ∈ room_members r st → c ∈ sockets st).
Proof.
  intros Hst. destruct (reachable_consistent st Hst) as [Hk Hreg Hown Hrooms].
  split_and!; assumption.
Qed.

Lemma running_server_invariant_witness :
  let st := Scenario.after Scenario.two_rooms in
  "B" ∈ sockets st ∧ "B" ∈ room_members "R2" st.
Proof.
  intros st.
  destruct (running_server_invariant st ScenarioFacts.reachable_two_rooms)
    as (_ & Hreg & _ & _).
  apply (Hreg "B" (mkUser "bob" "R2")). reflexivity.
Defined.

(** Where the handlers take the recipients of an emit from:
    [socket.emit], or a room through [io.to] or [socket.to]. *)
Lemma recipients_of_handle st c now e em :
  em ∈ (handle c now e st).2 →
  (recipients em = {[c]} ∧ e ≠ Disconnect) ∨
  ∃ r, recipients em = room_members r (handle c now e st).1 ∨
       recipients em = room_members r (handle c now e st).1
                         ∖ room_members c (handle c now e st).1.
Proof.
  destruct e; simpl;
    unfold on_join_room, on_send_message, on_send_image, on_get_room_users,
      on_call_user, on_accept_call, on_reject_call, on_end_call,
      on_webrtc_offer, on_webrtc_answer, on_webrtc_ice_candidate,
      on_disconnect;
    repeat case_match; simpl;
    rewrite ?elem_of_cons, ?elem_of_nil; intros Hin;
    destruct_or?; subst; simpl; try done; eauto.
Qed.

Lemma sockets_handle c now e st :
  sockets (handle c now e st).1 =
    match e with Disconnect => sockets st ∖ {[c]} | _ => sockets st end.
Proof.
  rewrite handle_next_state. destruct e; simpl; try done. by case_match.
Qed.

(** X2. On a running server, whatever event arrives on a connected
    socket, every emit of its handler reaches connected sockets only; what
    the ['disconnect'] handler sends never reaches the socket that
    closed. *)
Theorem emits_reach_connected_only (st : Server) (c now : string)
    (e : ClientEvent) (em : Emit) :
  reachable st → c ∈ sockets st →
  em ∈ (handle c now e st).2 →
  recipients em ⊆ sockets (handle c now e st).1 ∧
  (e = Disconnect → c ∉ recipients em).
Proof.
  intros Hst Hc Hin.
  pose proof (consistent_handle st c now e (reachable_consistent st Hst) Hc)
    as [_ _ _ Hrooms].
  assert (recipients em ⊆ sockets (handle c now e st).1) as Hsub.
  { destruct (recipients_of_handle st c now e em Hin)
      as [[-> He]|(r & [-> | ->])].
    - rewrite sockets_handle. destruct e; try done; set_solver.
    - intros x. apply Hrooms.
    - intros x [Hx _]%elem_of_difference. by eapply Hrooms. }
  split; [done|]. intros -> Hcin. apply Hsub in Hcin.
  rewrite sockets_handle in Hcin. set_solver.
Qed.

Lemma emits_reach_connected_only_witness :
  let st := Scenario.after Scenario.mid_call in
  let em := mkEmit {["B"]} (UserLeft "alice" "alice left the room") in
  recipients em ⊆ sockets (handle "A" "10:05:00" Disconnect st).1 ∧
  "A" ∉ recipients em.
Proof.
  intros st em.
  destruct (emits_reach_connected_only st "A" "10:05:00" Disconnect em)
    as [Hsub Hnot].
  - exact ScenarioFacts.reachable_mid_call.
  - apply (bool_decide_unpack _). vm_compute. exact I.
  - replace (handle "A" "10:05:00" Disconnect st).2
      with [em; mkEmit {["B"]} (RoomUsersList [("B", "bob")])]
      by (vm_compute; reflexivity).
    apply list_elem_of_here.
  - split; [exact Hsub | by apply Hnot].
Defined.

(** ** Room isolation for clients that join once *)

Lemma joins_once_reachable st : joins_once st → reachable st.
Proof.
  induction 1 as [|st c _ IH Hc|st c now e _ IH Hc _].
  - apply reachable_initial.
  - by apply reachable_connect.
  - by apply reachable_receive.
Qed.

Lemma joins_once_rooms_mirror_registry st :
  joins_once st → rooms_mirror_registry st.
Proof.
  induction 1 as [|st c _ IH Hc|st c now e Hst IH Hc Hjoin].
  - intros r c. unfold room_members, registry_lookup. simpl.
    rewrite lookup_empty. simpl. rewrite elem_of_empty. split; [done|].
    intros [[_ []]|(u & [=] & _)].
  - intros r c'. rewrite room_members_connect.
    change (registry_lookup c' (connect c st)) with (registry_lookup c' st).
    change (sockets (connect c st)) with ({[c]} ∪ sockets st).
    specialize (IH r c'). case_decide as Hr.
    + subst r. rewrite elem_of_union, elem_of_singleton, IH.
      rewrite elem_of_union, elem_of_singleton. naive_solver.
    + rewrite IH, elem_of_union, elem_of_singleton. naive_solver.
  - rewrite handle_next_state. destruct e; simpl; try done.
    + (* join-room *)
      case_match; [done|].
      assert (registry_lookup c st = None) as Hnone by eauto.
      intros r c'. rewrite room_members_socket_join.
      unfold registry_lookup in *. simpl.
      specialize (IH r c'). unfold registry_lookup in IH.
      match goal with
      | |- context [decide (?x = r)] => destruct (decide (x = r)) as [<-|Hr]
      end.
      * match goal with
        | |- context [room_members ?x (set_activeUsers ?f st)] =>
            change (room_members x (set_activeUsers f st))
              with (room_members x st)
        end.
        rewrite elem_of_union, elem_of_singleton, IH.
        destruct (decide (c = c')) as [<-|Hne].
        -- rewrite JsObjectFacts.get_put_eq. split; [|tauto].
           intros _. right. by eexists.
        -- rewrite JsObjectFacts.get_put_ne by done. naive_solver.
      * rewrite IH. destruct (decide (c = c')) as [<-|Hne].
        -- rewrite JsObjectFacts.get_put_eq, Hnone. split.
           ++ intros [?|(u & [=] & _)]. by left.
           ++ intros [?|(u & [= <-] & Hu)]; [by left|]. simpl in Hu. done.
        -- by rewrite JsObjectFacts.get_put_ne.
    + (* disconnect *)
      intros r c'.
      change (room_members r (set_activeUsers _ _))
        with (room_members r (socket_close c st)).
      rewrite room_members_socket_close, elem_of_difference, elem_of_singleton.
      unfold registry_lookup in *. simpl. specialize (IH r c').
      destruct (decide (c = c')) as [<-|Hne].
      * rewrite JsObjectFacts.get_remove_eq. split; [tauto|].
        intros [[_ Hin]|(u & [=] & _)]. set_solver.
      * rewrite JsObjectFacts.get_remove_ne by done. rewrite IH.
        rewrite elem_of_difference, elem_of_singleton. naive_solver.
Qed.

Lemma joins_once_step st i :
  joins_once st → admissible_once i st → joins_once (step i st).1.
Proof.
  intros Hst [Hadm Hjoin]. destruct i as [c|c now e]; simpl in *.
  - by apply joins_once_connect.
  - apply joins_once_receive; [done|done|]. by intros name room ->.
Qed.

Lemma joins_once_run inputs st :
  joins_once st → admissible_once_run inputs st → joins_once (run inputs st).1.
Proof.
  revert st. induction inputs as [|i inputs IH]; intros st Hst Hadm; [done|].
  destruct Hadm as [Hi Hrest]. rewrite run_cons; simpl.
  apply IH; [by apply joins_once_step | done].
Qed.

Lemma joins_once_two_joined : joins_once (Scenario.after Scenario.two_joined).
Proof.
  apply joins_once_run; [apply joins_once_initial|].
  apply (bool_decide_unpack _); vm_compute; exact I.
Defined.

(** With clients that join once, a room whose name is not the id of a
    connected socket holds exactly the connections registered in it. *)
Lemma joined_once_room_members st r c :
  joins_once st → r ∉ sockets st →
  c ∈ room_members r st ↔ ∃ u, registry_lookup c st = Some u ∧ roomId u = r.
Proof.
  intros Hst Hr. rewrite (joins_once_rooms_mirror_registry st Hst r c).
  split; [|by right]. intros [[-> Hc]|Hu]; done.
Qed.

(** X3. When every connection joins at most once while registered, and
    the sender's room id is not the id of a connected socket, a text is
    delivered to exactly the connections whose session has the sender's
    room id: to all of them and to nobody else. *)
Theorem room_isolation_when_joined_once (st : Server) (c now text : string)
    (u : User) :
  joins_once st →
  registry_lookup c st = Some u →
  trim text ≠ "" →
  roomId u ∉ sockets st →
  ∃ em,
    (handle c now (SendMessage text) st).2 = [em] ∧
    event em = ReceiveMessage (username u) (trim text) now ∧
    ∀ c', c' ∈ recipients em ↔
          ∃ u', registry_lookup c' st = Some u' ∧ roomId u' = roomId u.
Proof.
  intros Hst Hu Htrim Hroom.
  exists (mkEmit (room_members (roomId u) st)
                 (ReceiveMessage (username u) (trim text) now)).
  split_and!.
  - simpl. unfold on_send_message. unfold registry_lookup in Hu. rewrite Hu.
    rewrite send_message_guard. by rewrite bool_decide_eq_false_2.
  - done.
  - intros c'. simpl. by apply joined_once_room_members.
Qed.

Lemma room_isolation_when_joined_once_witness :
  let st := Scenario.after Scenario.two_joined in
  ∃ em,
    (handle "A" "10:03:00" (SendMessage "hello") st).2 = [em] ∧
    event em = ReceiveMessage "alice" (trim "hello") "10:03:00" ∧
    ("B" ∈ recipients em ↔
       ∃ u', registry_lookup "B" st = Some u' ∧ roomId u' = "R1").
Proof.
  intros st.
  destruct (room_isolation_when_joined_once st "A" "10:03:00" "hello"
              (mkUser "alice" "R1")) as (em & Hout & Hev & Hrec).
  - exact joins_once_two_joined.
  - reflexivity.
  - vm_compute. discriminate.
  - apply (bool_decide_unpack _). vm_compute. exact I.
  - exists em. split_and!; [exact Hout | exact Hev | apply Hrec].
Defined.

(** ** Rooms named after a socket id *)


Lemma reachable_named_after_socket :
  reachable (Scenario.after Scenario.named_after_socket).
Proof. ScenarioFacts.run_is_admissible. Defined.


(** ** Joining *)

(** X5. A ['join-room'] with non-empty user name and room id on a
    connected socket of a running server sends three events: the
    acknowledgement to the joiner alone; the join notice to the sockets
    already in the room that are not in the room named by the joiner's id,
    among them every other connection registered in the room that has not
    joined that room; the users list to every socket already in the room
    and to the joiner.  The list names the joiner under the name just
    given and under no other.  No leave notice is sent, also when the
    joiner was registered in another room. *)
Theorem join_room_outcome (st : Server) (c now name room : string) :
  reachable st → c ∈ sockets st → name ≠ "" → room ≠ "" →
  ∃ l,
    (handle c now (JoinRoom name room) st).2 =
      [ mkEmit {[c]} (JoinedRoom name room);
        mkEmit (room_members room st ∖ room_members c st)
               (UserJoined name (name +:+ " joined the room"));
        mkEmit ({[c]} ∪ room_members room st) (RoomUsersList l) ] ∧
    (∀ c' u', registry_lookup c' st = Some u' → roomId u' = room →
              c' ∈ {[c]} ∪ room_members room st ∧
              (c' ∉ room_members c st →
               c' ∈ room_members room st ∖ room_members c st)) ∧
    (∀ name', (c, name') ∈ l ↔ name' = name).
Proof.
  intros Hst Hc Hn Hr.
  destruct (join_room_sends c now name room st Hn Hr) as (l & Hout & Hl).
  pose proof (consistent_own_room st (reachable_consistent st Hst) c Hc)
    as Hown.
  exists l. split_and!.
  - rewrite Hout, handle_next_state. simpl.
    rewrite nonempty_is_truthy by done.
    rewrite !room_members_socket_join, decide_True by done.
    change (room_members room (set_activeUsers _ st))
      with (room_members room st).
    change (room_members c (set_activeUsers _ st))
      with (room_members c st).
    replace (({[c]} ∪ room_members room st)
               ∖ (if decide (room = c)
                  then {[c]} ∪ room_members room st
                  else room_members c st))
      with (room_members room st ∖ room_members c st);
      [done|].
    case_decide; [subst room|]; set_solver.
  - intros c' u' Hu' Hroom.
    pose proof (registered_in_room st c' u' Hst Hu') as Hin.
    rewrite Hroom in Hin. set_solver.
  - intros name'. rewrite (Hl c name').
    rewrite registry_lookup_join, decide_True by done.
    split; [by intros [= ->] | by intros ->].
Qed.

Lemma join_room_outcome_witness :
  let st := Scenario.after Scenario.two_rooms in
  ∃ l,
    (handle "C" "10:03:00" (JoinRoom "carol" "R1") st).2 =
      [ mkEmit {["C"]} (JoinedRoom "carol" "R1");
        mkEmit (room_members "R1" st ∖ room_members "C" st)
               (UserJoined "carol" "carol joined the room");
        mkEmit ({["C"]} ∪ room_members "R1" st) (RoomUsersList l) ] ∧
    "A" ∈ room_members "R1" st ∖ room_members "C" st ∧
    ("C", "carol") ∈ l.
Proof.
  intros st.
  destruct (join_room_outcome st "C" "10:03:00" "carol" "R1")
    as (l & Hout & Hmembers & Hself).
  - exact ScenarioFacts.reachable_two_rooms.
  - apply (bool_decide_unpack _). vm_compute. exact I.
  - done.
  - done.
  - exists l. split_and!.
    + exact Hout.
    + apply (Hmembers "A" (mkUser "alice" "R1")); [reflexivity|reflexivity|].
      apply (bool_decide_unpack _). vm_compute. exact I.
    + by apply Hself.
Defined.

(** ** Images *)

(** X6. ['send-image'] from a connection with no session sends an error
    to the sender alone; from a registered connection, an empty url sends
    nothing; any other url, white space included, is broadcast as it was
    received, with the sender's user name and the server's time stamp, to
    the Socket.IO room of the sender's room id, in which the sender and
    every connection registered in that room are.  The state is unchanged
    in all three cases. *)
Theorem send_image_outcome (st : Server) (c now imageUrl : string) :
  reachable st →
  match registry_lookup c st with
  | None =>
      handle c now (SendImage imageUrl) st
        = (st, [mkEmit {[c]} (ErrorEvent "You must join a room first!")])
  | Some u =>
      if decide (imageUrl = "") then
        handle c now (SendImage imageUrl) st = (st, [])
      else
        handle c now (SendImage imageUrl) st
          = (st, [mkEmit (room_members (roomId u) st)
                         (ReceiveImage (username u) imageUrl now)]) ∧
        c ∈ room_members (roomId u) st ∧
        ∀ c' u', registry_lookup c' st = Some u' → roomId u' = roomId u →
                 c' ∈ room_members (roomId u) st
  end.
Proof.
  intros Hst. simpl. unfold on_send_image, registry_lookup.
  destruct (JsObject.get c (activeUsers st)) as [u|] eqn:Hu; [|done].
  case_decide as Hurl.
  - by rewrite bool_decide_eq_true_2.
  - rewrite bool_decide_eq_false_2 by done. split_and!.
    + done.
    + by apply registered_in_room.
    + intros c' u'. by apply room_broadcast_reaches_members.
Qed.

Lemma send_image_outcome_witness :
  let st := Scenario.after Scenario.two_joined in
  handle "A" "10:03:00" (SendImage "  ") st
    = (st, [mkEmit (room_members "R1" st)
                   (ReceiveImage "alice" "  " "10:03:00")]) ∧
  "A" ∈ room_members "R1" st ∧
  "B" ∈ room_members "R1" st.
Proof.
  intros st.
  pose proof (send_image_outcome st "A" "10:03:00" "  "
                ScenarioFacts.reachable_two_joined) as H.
  change (registry_lookup "A" st) with (Some (mkUser "alice" "R1")) in H.
  cbv beta iota in H.
  rewrite decide_False in H by discriminate.
  destruct H as (Hout & Hself & Hall).
  split_and!; [exact Hout | exact Hself |].
  apply (Hall "B" (mkUser "bob" "R1")); reflexivity.
Defined.

(** ** Starting and ending a call *)

(** X7. When a registered caller names a connection whose session has
    the caller's room id and which is not in the room named by the
    caller's socket id, ['call-user'] sends ['incoming-call'] with the
    caller's socket id and user name and the call type as received,
    whatever string it is, to the sockets of the room named by the target
    that are not in the room named by the caller, among them the target;
    the caller gets nothing and the state is unchanged. *)
Theorem call_user_rings_target (st : Server) (c now target callType : string)
    (caller t : User) :
  reachable st → target ∉ room_members c st →
  registry_lookup c st = Some caller →
  registry_lookup target st = Some t →
  roomId t = roomId caller →
  handle c now (CallUser target callType) st
    = (st, [mkEmit (room_members target st ∖ room_members c st)
                   (IncomingCall c (username caller) callType)]) ∧
  target ∈ room_members target st ∖ room_members c st ∧
  c ∉ room_members target st ∖ room_members c st.
Proof.
  intros Hst Hne Hc Ht Hroom. split_and!.
  - simpl. unfold on_call_user. unfold registry_lookup in Hc, Ht.
    rewrite Hc, Ht. by rewrite bool_decide_eq_false_2 by (by intros ?).
  - apply addressed_socket_is_reached; [done| |done].
    by apply (consistent_registered st (reachable_consistent st Hst) target t).
  - pose proof (sender_in_own_room st c caller Hst Hc). set_solver.
Qed.

Lemma call_user_rings_target_witness :
  let st := Scenario.after Scenario.two_joined in
  handle "A" "10:03:00" (CallUser "B" "hologram") st
    = (st, [mkEmit (room_members "B" st ∖ room_members "A" st)
                   (IncomingCall "A" "alice" "hologram")]) ∧
  "B" ∈ room_members "B" st ∖ room_members "A" st.
Proof.
  intros st.
  destruct (call_user_rings_target st "A" "10:03:00" "B" "hologram"
              (mkUser "alice" "R1") (mkUser "bob" "R1"))
    as (Hout & Hin & _).
  - exact ScenarioFacts.reachable_two_joined.
  - apply (bool_decide_unpack _). vm_compute. exact I.
  - reflexivity.
  - reflexivity.
  - reflexivity.
  - split; [exact Hout | exact Hin].
Defined.

(** X8. ['end-call'] checks the sender only: from a registered
    connection of a running server it sends ['call-ended'], with the
    sender's socket id and user name, to any connected socket it names
    that is not in the room named by the sender's id, whether or not that
    socket has a session, shares the sender's room or was ever called; the
    state is unchanged. *)
Theorem end_call_checks_sender_only (st : Server) (c now target : string)
    (u : User) :
  reachable st → registry_lookup c st = Some u →
  target ∈ sockets st → target ∉ room_members c st →
  handle c now (EndCall target) st
    = (st, [mkEmit (room_members target st ∖ room_members c st)
                   (CallEnded c (username u))]) ∧
  target ∈ room_members target st ∖ room_members c st.
Proof.
  intros Hst Hu Ht Hne. split.
  - simpl. unfold on_end_call. unfold registry_lookup in Hu. by rewrite Hu.
  - by apply addressed_socket_is_reached.
Qed.

Lemma end_call_checks_sender_only_witness :
  let st := Scenario.after Scenario.two_rooms in
  registry_lookup "C" st = None ∧
  handle "A" "10:03:00" (EndCall "C") st
    = (st, [mkEmit (room_members "C" st ∖ room_members "A" st)
                   (CallEnded "A" "alice")]) ∧
  "C" ∈ room_members "C" st ∖ room_members "A" st.
Proof.
  intros st. split; [reflexivity|].
  apply (end_call_checks_sender_only st "A" "10:03:00" "C"
           (mkUser "alice" "R1")).
  - exact ScenarioFacts.reachable_two_rooms.
  - reflexivity.
  - apply (bool_decide_unpack _). vm_compute. exact I.
  - apply (bool_decide_unpack _). vm_compute. exact I.
Defined.

(** ** Events without effect *)

Lemma effect_free_handle c now e st :
  effect_free e = true → (handle c now e st).1 = st.
Proof.
  rewrite handle_next_state. destruct e; simpl; try done. by intros ->.
Qed.

(** X9. Events other than ['disconnect'] and a ['join-room'] that passes
    validation leave the whole state as it was (registry, connected
    sockets and rooms), in any number and order and from any sockets: the
    answer to whatever comes next is the same as if they had not
    arrived. *)
Theorem effect_free_run_preserves_state (inputs : list Input) (st : Server) :
  forallb effect_free_input inputs = true →
  (run inputs st).1 = st ∧
  ∀ c now e, handle c now e (run inputs st).1 = handle c now e st.
Proof.
  intros Hfree.
  assert ((run inputs st).1 = st) as Hrun.
  { induction inputs as [|i inputs IH]; [done|].
    simpl in Hfree. apply andb_true_iff in Hfree as [Hi Hrest].
    rewrite run_cons. simpl. destruct i as [c|c now e]; [done|]. simpl.
    rewrite effect_free_handle by done. by apply IH. }
  split; [done|]. intros c now e. by rewrite Hrun.
Qed.

Lemma effect_free_run_preserves_state_witness :
  let st := Scenario.after Scenario.two_joined in
  let inputs := [ Receive "A" "10:03:00" GetRoomUsers;
                  Receive "B" "10:03:01" (SendMessage "hi");
                  Receive "A" "10:03:02" (JoinRoom "" "R9");
                  Receive "B" "10:03:03" (CallUser "A" "video") ] in
  (run inputs st).1 = st ∧
  handle "A" "10:04:00" GetRoomUsers (run inputs st).1
    = handle "A" "10:04:00" GetRoomUsers st.
Proof.
  intros st inputs.
  destruct (effect_free_run_preserves_state inputs st) as [Hrun Hnext].
  - reflexivity.
  - split; [exact Hrun | apply Hnext].
Defined.

(** ** Joining and leaving again *)

Lemma remove_put_absent {V} (k : string) (v : V) (o : list (string * V)) :
  JsObject.get k o = None → JsObject.remove k (JsObject.put k v o) = o.
Proof.
  induction o as [|[k' v'] o IH]; simpl.
  - by rewrite decide_True.
  - destruct (decide (k' = k)) as [->|Hne]; [done|].
    intros Hget. simpl. rewrite decide_False by done. by rewrite IH.
Qed.

(** X10. For a connection with no session, ['join-room'] followed by
    ['disconnect'] leaves the server as ['disconnect'] alone would:
    [activeUsers] is exactly what it was, in the same order, and the
    connection is gone from the connected sockets and from every room. *)
Theorem join_then_disconnect_leaves_no_trace (st : Server)
    (c now now' name room : string) :
  registry_lookup c st = None →
  let st' := (handle c now' Disconnect
                (handle c now (JoinRoom name room) st).1).1 in
  activeUsers st' = activeUsers st ∧
  sockets st' = sockets st ∖ {[c]} ∧
  ∀ r, room_members r st' = room_members r st ∖ {[c]}.
Proof.
  intros Hnone st'. unfold st'. rewrite !handle_next_state. simpl.
  destruct (bool_decide (name = "") || bool_decide (room = "")); simpl.
  - split_and!; [by apply JsObjectFacts.remove_absent | done |].
    intros r.
    change (room_members r (set_activeUsers _ _))
      with (room_members r (socket_close c st)).
    apply room_members_socket_close.
  - split_and!; [by apply remove_put_absent | done |].
    intros r.
    match goal with
    | |- room_members r (set_activeUsers ?f (socket_close c ?s)) = _ =>
        change (room_members r (set_activeUsers f (socket_close c s)))
          with (room_members r (socket_close c s))
    end.
    rewrite room_members_socket_close, room_members_socket_join.
    change (room_members room (set_activeUsers _ st))
      with (room_members room st).
    case_decide; [subst|]; set_solver.
Qed.

Lemma join_then_disconnect_leaves_no_trace_witness :
  let st := Scenario.after Scenario.two_rooms in
  let st' := (handle "C" "10:04:00" Disconnect
                (handle "C" "10:03:00" (JoinRoom "carol" "R1") st).1).1 in
  activeUsers st' = activeUsers st ∧
  sockets st' = sockets st ∖ {["C"]} ∧
  room_members "R1" st' = room_members "R1" st ∖ {["C"]}.
Proof.
  intros st st'.
  destruct (join_then_disconnect_leaves_no_trace st "C" "10:03:00" "10:04:00"
              "carol" "R1") as (Hau & Hs & Hr); [reflexivity|].
  split_and!; [exact Hau | exact Hs | apply Hr].
Defined.

(** ** The registry along a run *)

(** X11. After any sequence of connections and events, the session of a
    connection is decided by its own events alone: it is that of its last
    valid ['join-room'] since its last ['disconnect'], or none; what other
    connections send, and every other event of its own, plays no part. *)
Theorem registry_follows_own_events (inputs : list Input) (st : Server)
    (c : SocketId) :
  registry_lookup c (run inputs st).1
    = session_after c inputs (registry_lookup c st).
Proof.
  revert st. induction inputs as [|i inputs IH]; intros st; [done|].
  rewrite run_cons. cbn [fst]. rewrite IH. clear IH.
  destruct i as [c'|c' now e]; [done|]. cbn [step session_after].
  unfold registry_lookup at 1. rewrite activeUsers_handle.
  destruct e as [name room|?|?| |? ?|?|?|?|? ?|? ?|? ?| ]; try done.
  - destruct (bool_decide (name = "") || bool_decide (room = ""));
      simpl; [by rewrite andb_false_r|].
    rewrite andb_true_r. case_bool_decide as Hc.
    + subst c'. by rewrite JsObjectFacts.get_put_eq.
    + by rewrite JsObjectFacts.get_put_ne.
  - case_bool_decide as Hc.
    + subst c'. by rewrite JsObjectFacts.get_remove_eq.
    + by rewrite JsObjectFacts.get_remove_ne.
Qed.

(** ** Users lists are sets *)

(** X12. On a running server no ['room-users-list'] names a connection
    twice, whichever handler sends it. *)
Theorem room_users_lists_have_no_duplicates (st : Server) (c now : string)
    (e : ClientEvent) (em : Emit) (l : list (SocketId * string)) :
  reachable st →
  em ∈ (handle c now e st).2 →
  event em = RoomUsersList l →
  NoDup (listed l).
Proof.
  intros Hst Hin Hev.
  pose proof (consistent_keys st (reachable_consistent st Hst)) as Hkeys.
  assert (∀ cond au, NoDup (JsObject.keys au) →
            event em = RoomUsersList (collect_room_users cond au) →
            NoDup (listed l)) as Hcollect.
  { intros cond au Hau Hev'. rewrite Hev in Hev'. injection Hev' as ->.
    by apply NoDup_listed_collect_room_users. }
  destruct e; simpl in Hin;
    unfold on_join_room, on_send_message, on_send_image, on_get_room_users,
      on_call_user, on_accept_call, on_reject_call, on_end_call,
      on_webrtc_offer, on_webrtc_answer, on_webrtc_ice_candidate,
      on_disconnect in Hin;
    repeat case_match; simpl in Hin;
    rewrite ?elem_of_cons, ?elem_of_nil in Hin;
    destruct_or?; subst em; simpl in Hev; try done.
  - eapply Hcollect; [|reflexivity]. simpl.
    by apply JsObjectFacts.NoDup_keys_put.
  - eapply Hcollect; [|reflexivity]. done.
  - eapply Hcollect; [|reflexivity]. simpl.
    by apply JsObjectFacts.NoDup_keys_remove.
Qed.

Lemma room_users_lists_have_no_duplicates_witness :
  NoDup (listed [("A", "alice"); ("B", "bob"); ("C", "carol")]).
Proof.
  set (st := Scenario.after Scenario.two_joined).
  apply (room_users_lists_have_no_duplicates
           (connect "C" st) "C" "10:03:00" (JoinRoom "carol" "R1")
           (mkEmit {["A"; "B"; "C"]}
                   (RoomUsersList [("A", "alice"); ("B", "bob"); ("C", "carol")]))).
  - apply reachable_connect; [exact ScenarioFacts.reachable_two_joined|].
    apply (bool_decide_unpack _). vm_compute. exact I.
  - replace (handle "C" "10:03:00" (JoinRoom "carol" "R1") (connect "C" st)).2
      with [ mkEmit {["C"]} (JoinedRoom "carol" "R1");
             mkEmit {["A"; "B"]} (UserJoined "carol" "carol joined the room");
             mkEmit {["A"; "B"; "C"]}
               (RoomUsersList [("A", "alice"); ("B", "bob"); ("C", "carol")]) ]
      by (vm_compute; reflexivity).
    do 2 apply list_elem_of_further. apply list_elem_of_here.
  - reflexivity.
Defined.

(** ** The text that is broadcast *)

Lemma chars_rev_app (s1 s2 : string) :
  list_ascii_of_string (String.rev_app s1 s2)
    = reverse (list_ascii_of_string s1) ++ list_ascii_of_string s2.
Proof.
  revert s2. induction s1 as [|a s1 IH]; intros s2; simpl; [done|].
  rewrite IH, reverse_cons. simpl. by rewrite <- app_assoc.
Qed.

Lemma chars_rev (s : string) :
  list_ascii_of_string (String.rev s) = reverse (list_ascii_of_string s).
Proof. unfold String.rev. rewrite chars_rev_app. simpl. apply app_nil_r. Qed.

Lemma string_length_ind (P : string → Prop) :
  (∀ s, (∀ t, String.length t < String.length s → P t) → P s) → ∀ s, P s.
Proof.
  intros Hstep s.
  enough (∀ n t, String.length t < n → P t) as Hall
    by (apply (Hall (S (String.length s))); lia).
  induction n as [|n IH]; intros t Ht; [lia|].
  apply Hstep. intros t' Ht'. apply IH. lia.
Qed.

Section strip.
Variables (ws2 : ascii → ascii → bool) (ws3 : ascii → ascii → ascii → bool).

(** What is left does not begin with white space of one byte. *)
Lemma strip_first_char (s : string) (a : ascii) :
  first_char (strip ws2 ws3 s) = Some a → is_white_space a = false.
Proof.
  unfold first_char. induction s as [s IH] using string_length_ind.
  destruct s as [|a0 s1]; simpl; [done|].
  destruct (is_white_space a0) eqn:Ha0; [apply IH; simpl; lia|].
  destruct s1 as [|b s2]; [simpl; by intros [= <-]|].
  destruct (ws2 a0 b); [apply IH; simpl; lia|].
  destruct s2 as [|c s3]; [simpl; by intros [= <-]|].
  destruct (ws3 a0 b c); [apply IH; simpl; lia|].
  simpl. by intros [= <-].
Qed.

(** What is left is the end of the string. *)
Lemma strip_suffix (s : string) :
  ∃ p, list_ascii_of_string s = p ++ list_ascii_of_string (strip ws2 ws3 s).
Proof.
  induction s as [s IH] using string_length_ind.
  destruct s as [|a0 s1]; simpl; [by exists []|].
  destruct (is_white_space a0).
  { destruct (IH s1) as [p Hp]; [simpl; lia|].
    exists (a0 :: p). simpl. by rewrite <- Hp. }
  destruct s1 as [|b s2]; [by exists []|].
  destruct (ws2 a0 b).
  { destruct (IH s2) as [p Hp]; [simpl; lia|].
    exists (a0 :: b :: p). simpl. by rewrite <- Hp. }
  destruct s2 as [|c s3]; [by exists []|].
  destruct (ws3 a0 b c); [|by exists []].
  destruct (IH s3) as [p Hp]; [simpl; lia|].
  exists (a0 :: b :: c :: p). simpl. by rewrite <- Hp.
Qed.
End strip.

Lemma trimEnd_last_char (s : string) (a : ascii) :
  last_char (trimEnd s) = Some a → is_white_space a = false.
Proof.
  unfold last_char, trimEnd. rewrite chars_rev, last_reverse.
  apply strip_first_char.
Qed.

(** [trimEnd] keeps the beginning of the string. *)
Lemma trimEnd_first_char (s : string) (a : ascii) :
  first_char (trimEnd s) = Some a → first_char s = Some a.
Proof.
  unfold first_char, trimEnd. rewrite chars_rev.
  destruct (strip_suffix (λ a b, is_white_space2 b a)
              (λ a b c, is_white_space3 c b a) (String.rev s)) as [p Hp].
  rewrite chars_rev in Hp.
  apply (f_equal reverse) in Hp. rewrite reverse_involutive, reverse_app in Hp.
  rewrite Hp.
  destruct (reverse (list_ascii_of_string _)) as [|x l]; [done|].
  simpl. done.
Qed.

(** What [trim] returns has no white space of one byte at either end. *)
Lemma trim_ends (s : string) :
  (∀ a, first_char (trim s) = Some a → is_white_space a = false) ∧
  (∀ a, last_char (trim s) = Some a → is_white_space a = false).
Proof.
  unfold trim. split; [|apply trimEnd_last_char].
  intros a Ha%trimEnd_first_char. by eapply strip_first_char.
Qed.

(** X13. The text of every ['receive-message'] the server sends is not
    empty and neither begins nor ends with white space, whatever text the
    client sent. *)
Theorem broadcast_text_is_trimmed (st : Server) (c now text : string)
    (em : Emit) (name message timestamp : string) :
  em ∈ (handle c now (SendMessage text) st).2 →
  event em = ReceiveMessage name message timestamp →
  message ≠ "" ∧
  (∀ a, first_char message = Some a → is_white_space a = false) ∧
  (∀ a, last_char message = Some a → is_white_space a = false).
Proof.
  simpl. unfold on_send_message.
  destruct (JsObject.get c (activeUsers st)) as [u|].
  - rewrite send_message_guard. case_bool_decide as Htrim.
    + by intros ?%elem_of_nil.
    + intros ->%list_elem_of_singleton. simpl. intros [= _ <- _].
      split; [done|]. apply trim_ends.
  - intros ->%list_elem_of_singleton. done.
Qed.

Lemma broadcast_text_is_trimmed_witness :
  let st := Scenario.after Scenario.two_joined in
  (handle "A" "10:03:00" (SendMessage "  hello ") st).2
    = [mkEmit {["A"; "B"]} (ReceiveMessage "alice" "hello" "10:03:00")] ∧
  "hello" ≠ "" ∧
  is_white_space "h" = false ∧
  is_white_space "o" = false.
Proof.
  intros st.
  assert ((handle "A" "10:03:00" (SendMessage "  hello ") st).2
            = [mkEmit {["A"; "B"]} (ReceiveMessage "alice" "hello" "10:03:00")])
    as Hout by (vm_compute; reflexivity).
  destruct (broadcast_text_is_trimmed st "A" "10:03:00" "  hello "
              (mkEmit {["A"; "B"]} (ReceiveMessage "alice" "hello" "10:03:00"))
              "alice" "hello" "10:03:00") as (Hne & Hfirst & Hlast).
  - rewrite Hout. apply list_elem_of_here.
  - reflexivity.
  - split_and!; [exact Hout | exact Hne | |].
    + apply Hfirst. reflexivity.
    + apply Hlast. reflexivity.
Defined.
